(** * Connector lines of the visual engine ([visual/line.py])

    A shallow embedding of class [Line]: the geometric helpers
    ([fracpoint], [midpoint], [make_arc], [in_circle], [find_intersect],
    [trim_ends]), the path builder [render] and the emitter [draw].

    Numbers.  The source computes on Python floats.  Coordinates and radii
    are modelled as exact rationals ([Q]): every operation of the file is a
    field operation or a comparison, except the square root of
    [find_intersect], whose only use is the test [sqrt(s) < .05]; as the
    square root is increasing, that test is modelled as [s < .05 ** 2]
    (lemma [sqrt_test] relates the two over the reals).  Rounding and
    overflow of floating point are therefore outside the model, and [/] is
    the division of real numbers (the source is Python 2, in which [/]
    truncates when both operands are integers; points are real-valued).
    Equality of coordinates is [Qeq], written [==]. *)

From Stdlib Require Import String QArith Qabs Qround ZArith List Lia Psatz.
From Stdlib Require Import Reals Qreals Rgeom.
Import ListNotations.

Local Open Scope Q_scope.

(** ** Points *)

Definition point : Type := (Q * Q)%type.

(** [p[0]] and [p[1]]. *)
Definition px (p : point) : Q := fst p.
Definition py (p : point) : Q := snd p.

(** Two points with equal coordinates. *)
Definition pt_eq (p q : point) : Prop := px p == px q /\ py p == py q.

(** ** Pure helpers of [Line] *)

(** [fracpoint(p1, p2, fract)] *)
Definition fracpoint (p1 p2 : point) (fract : Q) : point :=
  (px p1 + (px p2 - px p1) * fract, py p1 + (py p2 - py p1) * fract).

(** [midpoint(p1, p2)] *)
Definition midpoint (p1 p2 : point) : point :=
  ((px p1 + px p2) / 2, (py p1 + py p2) / 2).

(** The two literals of [make_arc]. *)
Definition frac_333 : Q := 333 # 1000.
Definition frac_666 : Q := 666 # 1000.

(** [make_arc(p1, p2)]: a 4-tuple. *)
Definition make_arc (p1 p2 : point) : point * point * point * point :=
  let m1 := fracpoint p1 p2 frac_333 in
  let m2 := fracpoint p1 p2 frac_666 in
  (p1, m1, m2, p2).

(** [(a[0] - b[0]) ** 2 + (a[1] - b[1]) ** 2] *)
Definition square_dist (a b : point) : Q :=
  (px a - px b) ^ 2 + (py a - py b) ^ 2.

(** The Euclidean distance, a real number: what [sqrt] computes in
    [find_intersect], and the distance the specification speaks of. *)
Definition distance (a b : point) : R := sqrt (Q2R (square_dist a b)).

(** Python's [a < b] on numbers. *)
Definition Qltb (a b : Q) : bool := negb (Qle_bool b a).

(** [in_circle(p, center, radius)] *)
Definition in_circle (p center : point) (radius : Q) : bool :=
  let square_dist := square_dist center p in
  Qltb square_dist (radius ^ 2).

(** The literal [.05] of [find_intersect] and its square. *)
Definition tolerance : Q := 5 # 100.
Definition tolerance_sq : Q := tolerance ^ 2.

(** [find_intersect(inpt, outpt, center, radius)], with the depth of the
    recursion bounded by [fuel]; [None] when the bound is reached. *)
Fixpoint find_intersect_rec (fuel : nat) (inpt outpt center : point)
    (radius : Q) : option point :=
  match fuel with
  | O => None
  | S fuel' =>
      (* 1. test to end recursion: dist < .05 *)
      if Qltb (square_dist inpt outpt) tolerance_sq then Some inpt
      else
        (* 2. divide the segment in half *)
        let midpt := midpoint outpt inpt in
        (* 3. recurse with segment that straddles the circle boundary *)
        if in_circle midpt center radius
        then find_intersect_rec fuel' midpt outpt center radius
        else find_intersect_rec fuel' inpt midpt center radius
  end.

(** A depth that is enough for the pair [(inpt, outpt)]: the squared
    distance is divided by four at each call, and [depth] is above the
    base-2 logarithm of [squared distance / .05 ** 2]. *)
Definition depth (inpt outpt : point) : nat :=
  S (S (Z.to_nat (Z.log2 (Qceiling (square_dist inpt outpt / tolerance_sq))))).

(** [find_intersect] itself: the recursion run to its end
    ([find_intersect_rec_depth] shows that [depth] is enough, so the
    default is never taken). *)
Definition find_intersect (inpt outpt center : point) (radius : Q) : point :=
  match find_intersect_rec (depth inpt outpt) inpt outpt center radius with
  | Some p => p
  | None => inpt
  end.

(** [trim_ends(end0, end1, p0, p1, r0, r1)].  The first test on circle 0
    is an [if] of its own; the second one opens the [if/elif/elif] chain. *)
Definition trim_ends (end0 end1 p0 p1 : point) (r0 r1 : Q) : point * point :=
  if (in_circle end0 p0 r0 && in_circle end1 p0 r0)
     || (in_circle end0 p1 r1 && in_circle end1 p1 r1)
  then (end0, end1)
  else
    let end0 :=
      if in_circle end0 p0 r0 then find_intersect end0 end1 p0 r0 else end0 in
    if in_circle end1 p0 r0 then
      (find_intersect end1 end0 p0 r0, end1)
    else if in_circle end0 p1 r1 then
      (end0, find_intersect end0 end1 p1 r1)
    else if in_circle end1 p1 r1 then
      (end0, find_intersect end1 end0 p1 r1)
    else (end0, end1).


(** [p] lies on the segment from [a] to [b]. *)
Definition on_segment (a b p : point) : Prop :=
  exists t : Q, 0 <= t /\ t <= 1 /\ pt_eq p (fracpoint a b t).

(** The runs of [find_intersect], one constructor per [return] of the
    source: [bisects c r inpt outpt p] when the call on [(inpt, outpt)]
    returns [p]. *)
Inductive bisects (center : point) (radius : Q) : point -> point -> point -> Prop :=
| bisects_stop inpt outpt :
    square_dist inpt outpt < tolerance_sq ->
    bisects center radius inpt outpt inpt
| bisects_inner inpt outpt p :
    tolerance_sq <= square_dist inpt outpt ->
    in_circle (midpoint outpt inpt) center radius = true ->
    bisects center radius (midpoint outpt inpt) outpt p ->
    bisects center radius inpt outpt p
| bisects_outer inpt outpt p :
    tolerance_sq <= square_dist inpt outpt ->
    in_circle (midpoint outpt inpt) center radius = false ->
    bisects center radius inpt (midpoint outpt inpt) p ->
    bisects center radius inpt outpt p.

(** Powers of four, and pairs settled within [n] halvings: the squared
    distance is below [.05 ** 2 * 4 ^ n]. *)
Fixpoint pow4 (n : nat) : Q :=
  match n with
  | O => 1
  | S k => 4 * pow4 k
  end.

Definition within (n : nat) (inpt outpt : point) : Prop :=
  square_dist inpt outpt < tolerance_sq * pow4 n.

(** ** The state of a [Line] *)

(** An entry of the point buffer [m_arcpoints]: a point, or the empty
    list [[]] with which pathfinding starts its [lastpt]. *)
Inductive entry : Type :=
| Pt (p : point)
| NoPt.

(** A 4-tuple of [m_arcindex]. *)
Definition arc_index : Type := (nat * nat * nat * nat)%type.

Definition color : Type := (Q * Q * Q)%type.

(** The field object, as far as [draw] uses it: its method
    [rescale_pt2screen].  ([m_osc.send_laser] is an output, see [event].) *)
Record Field : Type := {
  rescale_pt2screen : list point -> list (Z * Z)
}.

(** The attributes of a [Line].  [None] is Python's [None], for the
    attributes that [draw] tests.  The radii and the way points are
    numbers and points: the source reads them only in [render], which
    [draw] calls when both end points are set, and [update] sets end
    points, radii and path together. *)
Record Line : Type := {
  m_field : option Field;
  m_p0 : option point;
  m_p1 : option point;
  m_r0 : Q;
  m_r1 : Q;
  m_color : option color;
  m_path : list point;
  m_arcpoints : option (list entry);
  m_arcindex : option (list arc_index);
  m_points : list (list point);
  m_index : list (list nat)
}.

(** The line [st] with new values of its four derived attributes. *)
Definition with_derived (st : Line) (arcpoints : option (list entry))
    (arcindex : option (list arc_index)) (points : list (list point))
    (index : list (list nat)) : Line :=
  {| m_field := m_field st; m_p0 := m_p0 st; m_p1 := m_p1 st;
     m_r0 := m_r0 st; m_r1 := m_r1 st; m_color := m_color st;
     m_path := m_path st;
     m_arcpoints := arcpoints; m_arcindex := arcindex;
     m_points := points; m_index := index |}.

(** [__init__]  (the radii, [None] there, are not read before [update]
    has set them; [m_path] does not exist yet). *)
Definition init : Line := {|
  m_field := None; m_p0 := None; m_p1 := None; m_r0 := 0; m_r1 := 0;
  m_color := None; m_path := [];
  m_arcpoints := None; m_arcindex := None;
  m_points := []; m_index := []
|}.

(** [update(field, p0, p1, r0, r1, color, path=None)].  Without a path,
    [m_path] is [[p0, p1]]; when one of the two is [None] that list is
    never read ([draw] skips [render]), and it is modelled as empty. *)
Definition update (st : Line) (field : option Field) (p0 p1 : option point)
    (r0 r1 : Q) (c : option color) (path : option (list point)) : Line :=
  {| m_field := field; m_p0 := p0; m_p1 := p1; m_r0 := r0; m_r1 := r1;
     m_color := c;
     m_path := match path with
               | Some path => path
               | None =>
                   match p0, p1 with
                   | Some p0, Some p1 => [p0; p1]
                   | _, _ => []
                   end
               end;
     m_arcpoints := m_arcpoints st; m_arcindex := m_arcindex st;
     m_points := m_points st; m_index := m_index st |}.

(** ** Outputs and errors *)

(** What [draw] sends out: the two calls to the screen engine and the
    messages to the laser engine.  (The debugging prints are left out.) *)
Inductive event : Type :=
| glColor3f (r g b : Q)
| draw_indexed (count : nat) (index : list nat) (v2i : list Z)
| send_laser (path : string) (args : list Q).

Inductive exn : Type :=
| IndexError.

Inductive result (A : Type) : Type :=
| Ok (a : A)
| Raise (e : exn).
Arguments Ok {A} a.
Arguments Raise {A} e.

(** Methods of [Line]: they read and write the attributes, send events,
    and return or raise. *)
Definition M (A : Type) : Type := Line -> result A * Line * list event.

Definition ret {A : Type} (a : A) : M A := fun st => (Ok a, st, []).

Definition bind {A B : Type} (m : M A) (f : A -> M B) : M B :=
  fun st =>
    match m st with
    | (Ok a, st', out) =>
        let '(r, st'', out') := f a st' in (r, st'', out ++ out')
    | (Raise e, st', out) => (Raise e, st', out)
    end.

Definition raise {A : Type} (e : exn) : M A := fun st => (Raise e, st, []).
Definition get : M Line := fun st => (Ok st, st, []).
Definition put (st : Line) : M unit := fun _ => (Ok tt, st, []).
Definition emit (e : event) : M unit := fun st => (Ok tt, st, [e]).

Declare Scope line_scope.
Delimit Scope line_scope with line.
Notation "x <- m ;; k" := (bind m (fun x => k))
  (at level 61, m at next level, right associativity) : line_scope.
Notation "' pat <- m ;; k" := (bind m (fun x => let 'pat := x in k))
  (at level 61, pat pattern, m at next level, right associativity) : line_scope.
Notation "m ;; k" := (bind m (fun _ => k))
  (at level 61, right associativity) : line_scope.

(** [for x in l: body(x)] *)
Fixpoint for_each {A : Type} (l : list A) (body : A -> M unit) : M unit :=
  match l with
  | [] => ret tt
  | x :: l' => bind (body x) (fun _ => for_each l' body)
  end.

(** [range(start, stop, step)] for a positive [step]. *)
Definition range (start stop step : nat) : list nat :=
  map (fun k => start + k * step)%nat
      (seq 0 ((stop - start + (step - 1)) / step)).

(** ** [render] *)

(** The pathfinding loop over the consecutive pairs
    [(m_path[i], m_path[i+1])], with its two locals [npath] and [lastpt]. *)
Fixpoint path_loop (p0 p1 : point) (r0 r1 : Q) (path : list point)
    (npath : list entry) (lastpt : entry) : list entry * entry :=
  match path with
  | [] => (npath, lastpt)
  | thispt :: rest =>
      match rest with
      | [] => (npath, lastpt)
      | nextpt :: _ =>
          if (in_circle thispt p0 r0 && in_circle nextpt p0 r0)
             || (in_circle thispt p1 r1 && in_circle nextpt p1 r1)
          then (* continue *) path_loop p0 p1 r0 r1 rest npath lastpt
          else
            let '(thispt, nextpt) :=
              if in_circle thispt p0 r0
              then (find_intersect thispt nextpt p0 r0, nextpt)
              else if in_circle nextpt p1 r1
              then (thispt, find_intersect nextpt thispt p1 r1)
              else (thispt, nextpt) in
            let '(a0, a1, a2, a3) := make_arc thispt nextpt in
            path_loop p0 p1 r0 r1 rest
                      (npath ++ [Pt a0; Pt a1; Pt a2]) (Pt a3)
      end
  end.

(** [list += tuple] with the 4-tuple of [make_arc]. *)
Definition extend (l : list entry) (arc : point * point * point * point)
    : list entry :=
  let '(a0, a1, a2, a3) := arc in l ++ [Pt a0; Pt a1; Pt a2; Pt a3].

Definition three_arcs : list arc_index :=
  [(0, 1, 2, 3); (3, 5, 6, 7); (7, 9, 10, 11)]%nat.

(** [config.curve_segments] and [config.graphic_modes = 1 | 2]. *)
Definition CURVE_SEGS : Z := 12.
Definition graphic_modes : Z := Z.lor 1 2.

Section Engine.

(** [config.linemode] and [config.graphic_modes], for any configuration;
    the function [cubic_spline] of module [curves]. *)
Variable LINEMODE : string.
Variable GRAPHMODES : Z.
Variable cubic_spline :
  point -> point -> point -> point -> Z -> list point * list nat.

Local Open Scope line_scope.

(** The arcs of [render] for end points [p0], [p1]: the values it
    leaves in [m_arcpoints] and [m_arcindex]. *)
Definition render_arcs (p0 p1 : point) (r0 r1 : Q) (path : list point)
    : option (list entry) * option (list arc_index) :=
  if String.eqb LINEMODE "direct"%string then
    (Some [Pt (px p0, py p0); Pt (midpoint p0 p1);
           Pt (midpoint p0 p1); Pt (px p1, py p1)],
     Some [(0, 1, 2, 3)%nat])
  else if String.eqb LINEMODE "curves"%string then
    let '(x0, y0) := p0 in
    let '(x1, y1) := p1 in
    let xdif := Qabs (x0 - x1) in
    let ydif := Qabs (y0 - y1) in
    let '(a0, a1, a2, a3) :=
      if Qeq_bool xdif 0 || Qeq_bool ydif 0 then
        let midpt := midpoint p0 p1 in (p0, midpt, midpt, p1)
      else if Qltb ydif xdif then
        let xmid := (x0 + x1) / 2 in (p0, (xmid, y0), (xmid, y1), p1)
      else
        let ymid := (y0 + y1) / 2 in (p0, (x0, ymid), (x0, ymid), p1) in
    let '(a0, a1) := trim_ends a0 a1 p0 p1 r0 r1 in
    let '(a2, a3) := trim_ends a2 a3 p0 p1 r0 r1 in
    (Some [Pt a0; Pt a1; Pt a2; Pt a3], Some [(0, 1, 2, 3)%nat])
  else if String.eqb LINEMODE "simple"%string then
    let '(x0, y0) := p0 in
    let '(x1, y1) := p1 in
    let xdif := Qabs (x0 - x1) in
    let ydif := Qabs (y0 - y1) in
    if Qeq_bool xdif 0 || Qeq_bool ydif 0 then
      let midpt := midpoint p0 p1 in
      (Some [Pt p0; Pt midpt; Pt midpt; Pt p1], Some [(0, 1, 2, 3)%nat])
    else if Qltb ydif xdif then
      let xmid := (x0 + x1) / 2 in
      let pts := extend [] (make_arc p0 (xmid, y0)) in
      let pts := extend pts (make_arc (xmid, y0) (xmid, y1)) in
      let pts := extend pts (make_arc (xmid, y1) p1) in
      (Some pts, Some three_arcs)
    else
      let ymid := (y0 + y1) / 2 in
      let pts := extend [] (make_arc p0 (x0, ymid)) in
      let pts := extend pts (make_arc (x0, ymid) (x1, ymid)) in
      let pts := extend pts (make_arc (x1, ymid) p1) in
      (Some pts, Some three_arcs)
  else if String.eqb LINEMODE "improved_simple"%string then
    (None, None)
  else if String.eqb LINEMODE "pathfinding"%string then
    let '(npath, lastpt) := path_loop p0 p1 r0 r1 path [] NoPt in
    let npath := npath ++ [lastpt] in
    (Some npath,
     Some (map (fun x => (x - 3, x - 2, x - 1, x)%nat)
               (range 3 (length npath) 3)))
  else
    (* 'improved_pathfinding', or no branch at all *)
    (None, None).

(** [render()], called with both end points set: the four derived
    attributes are reset, then the arcs are stored. *)
Definition render (p0 p1 : point) : M unit :=
  st <- get ;;
  put (with_derived st None None [] []) ;;
  let '(arcpoints, arcindex) :=
    render_arcs p0 p1 (m_r0 st) (m_r1 st) (m_path st) in
  put (with_derived st arcpoints arcindex [] []).

(** ** [draw] *)

(** [self.m_arcpoints[k]], read as a point: an index out of range, or
    an entry [[]] read at [[0]], is an [IndexError]. *)
Definition arcpoint (arcpoints : list entry) (k : nat) : M point :=
  match nth_error arcpoints k with
  | Some (Pt p) => ret p
  | _ => raise IndexError
  end.

(** The four points of one arc. *)
Definition arc_points (arcpoints : list entry) (a : arc_index)
    : M (point * point * point * point) :=
  let '(i0, i1, i2, i3) := a in
  p0 <- arcpoint arcpoints i0 ;;
  p1 <- arcpoint arcpoints i1 ;;
  p2 <- arcpoint arcpoints i2 ;;
  p3 <- arcpoint arcpoints i3 ;;
  ret (p0, p1, p2, p3).

(** [self.m_points.append(points); self.m_index.append(index)] *)
Definition append_segments (points : list point) (index : list nat)
    : M unit :=
  st <- get ;;
  put (with_derived st (m_arcpoints st) (m_arcindex st)
         (m_points st ++ [points]) (m_index st ++ [index])).

(** The flat tuple that [chain] makes of [scaled_pts]. *)
Definition chain (pts : list (Z * Z)) : list Z :=
  flat_map (fun p => [fst p; snd p]) pts.

(** The screen branch of [draw]. *)
Definition draw_screen (field : Field) (arcpoints : list entry)
    (arcindex : list arc_index) (c : color) : M unit :=
  for_each arcindex (fun a =>
    '(p0, p1, p2, p3) <- arc_points arcpoints a ;;
    let '(points, index) :=
      if (Qeq_bool (px p0) (px p1) && Qeq_bool (px p1) (px p2)
            && Qeq_bool (px p2) (px p3))
         || (Qeq_bool (py p0) (py p1) && Qeq_bool (py p1) (py p2)
               && Qeq_bool (py p2) (py p3))
      then ([p0; p1; p2; p3], [0; 1; 1; 2; 2; 3]%nat)
      else cubic_spline p0 p1 p2 p3 CURVE_SEGS in
    append_segments points index) ;;
  st <- get ;;
  for_each (seq 0 (length (m_index st))) (fun i =>
    match nth_error (m_points st) i, nth_error (m_index st) i with
    | Some points, Some index =>
        let scaled_pts := rescale_pt2screen field points in
        let '(c0, c1, c2) := c in
        emit (glColor3f c0 c1 c2) ;;
        emit (draw_indexed (length scaled_pts) index (chain scaled_pts))
    | _, _ => raise IndexError
    end).

(** The laser branch of [draw]. *)
Definition draw_osc (arcpoints : list entry) (arcindex : list arc_index)
    (c : color) : M unit :=
  let '(c0, c1, c2) := c in
  emit (send_laser "/laser/set/color"%string [c0; c1; c2]) ;;
  for_each arcindex (fun a =>
    '(p0, p1, p2, p3) <- arc_points arcpoints a ;;
    emit (send_laser "/laser/bezier/cubic"%string
            [px p0; py p0; px p1; py p1; px p2; py p2; px p3; py p3])).

(** [GRAPHMODES & GRAPHOPTS[...]], as a truth value. *)
Definition graph_opt (bit : Z) : bool := negb (Z.land GRAPHMODES bit =? 0)%Z.

(** The first statement of [draw]:
    [if self.m_p0 and self.m_p1: self.render()]. *)
Definition draw_render : M unit :=
  st <- get ;;
  match m_p0 st, m_p1 st with
  | Some p0, Some p1 => render p0 p1
  | _, _ => ret tt
  end.

(** The second statement of [draw], guarded by
    [self.m_field and self.m_arcpoints and self.m_arcindex and
    self.m_color]: an attribute is true when it is not [None] and, for
    a list, not empty. *)
Definition draw_output : M unit :=
  st <- get ;;
  match m_field st, m_arcpoints st, m_arcindex st, m_color st with
  | Some field, Some ((_ :: _) as arcpoints), Some ((_ :: _) as arcindex),
    Some c =>
      (if graph_opt 1 then draw_screen field arcpoints arcindex c
       else ret tt) ;;
      (if graph_opt 2 then draw_osc arcpoints arcindex c else ret tt)
  | _, _, _, _ => ret tt
  end.

(** [draw()] *)
Definition draw : M unit := draw_render ;; draw_output.

End Engine.

(** ** Notions of the specification *)

(** [lerp(a, b, t)]: the point at fraction [t] of the way from [a] to [b]. *)
Definition lerp (a b : point) (t : Q) : point :=
  (px a + t * (px b - px a), py a + t * (py b - py a)).

(** Two arcs with equal points. *)
Definition arc_eq (a b : point * point * point * point) : Prop :=
  let '(a0, a1, a2, a3) := a in
  let '(b0, b1, b2, b3) := b in
  pt_eq a0 b0 /\ pt_eq a1 b1 /\ pt_eq a2 b2 /\ pt_eq a3 b3.

(** Two buffers with equal entries. *)
Definition entry_eq (a b : entry) : Prop :=
  match a, b with
  | Pt p, Pt q => pt_eq p q
  | NoPt, NoPt => True
  | _, _ => False
  end.

Definition entries_eq (a b : list entry) : Prop := Forall2 entry_eq a b.

(** A way point pair that pathfinding skips: both points inside the same
    circle. *)
Definition skipped (p0 p1 : point) (r0 r1 : Q) (a b : point) : bool :=
  (in_circle a p0 r0 && in_circle b p0 r0)
  || (in_circle a p1 r1 && in_circle b p1 r1).

Fixpoint all_skipped (p0 p1 : point) (r0 r1 : Q) (path : list point) : bool :=
  match path with
  | [] => true
  | a :: rest =>
      match rest with
      | [] => true
      | b :: _ => skipped p0 p1 r0 r1 a b && all_skipped p0 p1 r0 r1 rest
      end
  end.

(** An attribute holding a list is false: [None] or empty. *)
Definition falsy {A : Type} (l : option (list A)) : Prop :=
  l = None \/ l = Some [].

(** The arc chain of a line is empty when its point buffer or its index
    is. *)
Definition chain_empty (st : Line) : Prop :=
  falsy (m_arcpoints st) \/ falsy (m_arcindex st).

(** The four entries that an arc adds to the point buffer. *)
Definition arc_entries (arc : point * point * point * point) : list entry :=
  let '(a0, a1, a2, a3) := arc in [Pt a0; Pt a1; Pt a2; Pt a3].

(** The parts of the outcome of a method. *)
Definition returned {A : Type} (o : result A * Line * list event) : result A :=
  fst (fst o).
Definition state_after {A : Type} (o : result A * Line * list event) : Line :=
  snd (fst o).
Definition emitted {A : Type} (o : result A * Line * list event) : list event :=
  snd o.

(** [config.xmin_field] ... [config.ymax_field], and the points of the
    field. *)
Definition xmin_field : Q := - 1600.
Definition ymin_field : Q := 0.
Definition xmax_field : Q := 1600.
Definition ymax_field : Q := 1600.

Definition in_field (p : point) : Prop :=
  xmin_field <= px p /\ px p <= xmax_field
  /\ ymin_field <= py p /\ py p <= ymax_field.

(** Two circles that do not overlap: the centres are at least the sum of
    the radii apart. *)
Definition disjoint_circles (p0 p1 : point) (r0 r1 : Q) : Prop :=
  0 <= r0 /\ 0 <= r1 /\ (r0 + r1) ^ 2 <= square_dist p0 p1.

(** ** The arcs of a chain *)

Definition arc : Type := (point * point * point * point)%type.

(** The point at index [k] of the buffer, when [k] is in range and the
    entry is a point. *)
Definition entry_point (arcpoints : list entry) (k : nat) : option point :=
  match nth_error arcpoints k with
  | Some (Pt p) => Some p
  | _ => None
  end.

(** The arc that a 4-tuple of the index describes. *)
Definition read_arc (arcpoints : list entry) (a : arc_index) : option arc :=
  let '(i0, i1, i2, i3) := a in
  match entry_point arcpoints i0, entry_point arcpoints i1,
        entry_point arcpoints i2, entry_point arcpoints i3 with
  | Some p0, Some p1, Some p2, Some p3 => Some (p0, p1, p2, p3)
  | _, _, _, _ => None
  end.

(** The arcs of a chain, when every tuple of the index describes one. *)
Fixpoint read_arcs (arcpoints : list entry) (arcindex : list arc_index)
    : option (list arc) :=
  match arcindex with
  | [] => Some []
  | a :: arcindex' =>
      match read_arc arcpoints a, read_arcs arcpoints arcindex' with
      | Some q, Some qs => Some (q :: qs)
      | _, _ => None
      end
  end.

(** A line whose derived attributes are consistent: the index, if any,
    describes arcs of the point buffer, and [m_points] and [m_index] go
    together. *)
Definition sound (st : Line) : Prop :=
  match m_arcpoints st, m_arcindex st with
  | Some arcpoints, Some arcindex => read_arcs arcpoints arcindex <> None
  | _, _ => True
  end
  /\ length (m_points st) = length (m_index st).

(** Two lines with the same attributes set by [update]. *)
Definition same_inputs (st st' : Line) : Prop :=
  m_field st = m_field st' /\ m_p0 st = m_p0 st' /\ m_p1 st = m_p1 st'
  /\ m_r0 st = m_r0 st' /\ m_r1 st = m_r1 st'
  /\ m_color st = m_color st' /\ m_path st = m_path st'.

(** The test of [draw] for an arc drawn as a straight line. *)
Definition straight (q : arc) : bool :=
  let '(p0, p1, p2, p3) := q in
  (Qeq_bool (px p0) (px p1) && Qeq_bool (px p1) (px p2)
     && Qeq_bool (px p2) (px p3))
  || (Qeq_bool (py p0) (py p1) && Qeq_bool (py p1) (py p2)
        && Qeq_bool (py p2) (py p3)).

(** The line segments that the screen branch makes of an arc. *)
Definition segments
    (cubic_spline : point -> point -> point -> point -> Z
                    -> list point * list nat)
    (q : arc) : list point * list nat :=
  let '(p0, p1, p2, p3) := q in
  if straight q then ([p0; p1; p2; p3], [0; 1; 1; 2; 2; 3]%nat)
  else cubic_spline p0 p1 p2 p3 CURVE_SEGS.

(** The two calls to the screen engine for one list of segments. *)
Definition screen_calls (field : Field) (c : color)
    (s : list point * list nat) : list event :=
  let '(c0, c1, c2) := c in
  let scaled_pts := rescale_pt2screen field (fst s) in
  [glColor3f c0 c1 c2;
   draw_indexed (length scaled_pts) (snd s) (chain scaled_pts)].

(** The messages to the laser engine for a list of arcs. *)
Definition cubic_message (q : arc) : event :=
  let '(p0, p1, p2, p3) := q in
  send_laser "/laser/bezier/cubic"%string
    [px p0; py p0; px p1; py p1; px p2; py p2; px p3; py p3].

Definition laser_messages (c : color) (arcs : list arc) : list event :=
  let '(c0, c1, c2) := c in
  send_laser "/laser/set/color"%string [c0; c1; c2]
  :: map cubic_message arcs.

Definition is_laser (e : event) : bool :=
  match e with
  | send_laser _ _ => true
  | _ => false
  end.

(** The line after the screen branch has added the segments of [arcs]. *)
Definition drawn
    (cubic_spline : point -> point -> point -> point -> Z
                    -> list point * list nat)
    (st : Line) (arcs : list arc) : Line :=
  with_derived st (m_arcpoints st) (m_arcindex st)
    (m_points st ++ map fst (map (segments cubic_spline) arcs))
    (m_index st ++ map snd (map (segments cubic_spline) arcs)).

(** ** The arcs of pathfinding *)

(** The arc that the pathfinding loop makes of a pair that it does not
    skip. *)
Definition pair_arc (p0 p1 : point) (r0 r1 : Q) (thispt nextpt : point) : arc :=
  let '(thispt, nextpt) :=
    if in_circle thispt p0 r0
    then (find_intersect thispt nextpt p0 r0, nextpt)
    else if in_circle nextpt p1 r1
    then (thispt, find_intersect nextpt thispt p1 r1)
    else (thispt, nextpt) in
  make_arc thispt nextpt.

(** The arcs of the pairs of a path that are not skipped, in order. *)
Fixpoint path_arcs (p0 p1 : point) (r0 r1 : Q) (path : list point) : list arc :=
  match path with
  | [] => []
  | thispt :: rest =>
      match rest with
      | [] => []
      | nextpt :: _ =>
          if skipped p0 p1 r0 r1 thispt nextpt
          then path_arcs p0 p1 r0 r1 rest
          else pair_arc p0 p1 r0 r1 thispt nextpt
               :: path_arcs p0 p1 r0 r1 rest
      end
  end.

(** Arcs joined into a chain: each arc but the last ends where the next
    one starts. *)
Fixpoint joined (arcs : list arc) : list arc :=
  match arcs with
  | [] => []
  | (a0, a1, a2, a3) :: rest =>
      match rest with
      | [] => [(a0, a1, a2, a3)]
      | (b0, _, _, _) :: _ => (a0, a1, a2, b0) :: joined rest
      end
  end.

(** The consecutive pairs of a path, each made into an arc. *)
Fixpoint pair_arcs (path : list point) : list arc :=
  match path with
  | [] => []
  | a :: rest =>
      match rest with
      | [] => []
      | b :: _ => make_arc a b :: pair_arcs rest
      end
  end.

(** The three entries that pathfinding stores for an arc, the end that it
    keeps for the last one, and the tuple of the [i]-th arc in its index. *)
Definition first3 (q : arc) : list entry :=
  let '(a0, a1, a2, _) := q in [Pt a0; Pt a1; Pt a2].

Fixpoint last_end (arcs : list arc) (lastpt : entry) : entry :=
  match arcs with
  | [] => lastpt
  | (_, _, _, a3) :: rest => last_end rest (Pt a3)
  end.

Definition window (i : nat) : arc_index :=
  (i * 3, i * 3 + 1, i * 3 + 2, i * 3 + 3)%nat.

(** The two control points of curves mode, before trimming. *)
Definition curve_controls (p0 p1 : point) : point * point :=
  let '(x0, y0) := p0 in
  let '(x1, y1) := p1 in
  let xdif := Qabs (x0 - x1) in
  let ydif := Qabs (y0 - y1) in
  if Qeq_bool xdif 0 || Qeq_bool ydif 0 then
    (midpoint p0 p1, midpoint p0 p1)
  else if Qltb ydif xdif then
    (((x0 + x1) / 2, y0), ((x0 + x1) / 2, y1))
  else
    ((x0, (y0 + y1) / 2), (x0, (y0 + y1) / 2)).

(** A point outside both circles. *)
Definition outside_both (p0 p1 : point) (r0 r1 : Q) (p : point) : Prop :=
  in_circle p p0 r0 = false /\ in_circle p p1 r1 = false.

(** ** Stand-ins for the collaborators, for runs on concrete lines *)

(** A field whose [rescale_pt2screen] rounds the coordinates down. *)
Definition floor_field : Field :=
  {| rescale_pt2screen :=
       map (fun p : point => (Qfloor (px p), Qfloor (py p))) |}.

(** A [cubic_spline] that joins the two ends of the arc. *)
Definition chord_spline (p0 p1 p2 p3 : point) (n : Z)
    : list point * list nat :=
  ([p0; p3], [0; 1]%nat).

Definition white : color := (1, 1, 1).

(** * Properties *)

(** Linear arithmetic on [Q] does not read a division: divisions by the
    literals of the source are turned into products first. *)
Ltac no_div :=
  unfold Qdiv in *;
  change (/ 2) with (1 # 2) in *;
  change (/ 4) with (1 # 4) in *;
  unfold tolerance_sq, tolerance in *.

(** ** Comparisons *)

Lemma Qltb_lt (a b : Q) : Qltb a b = true <-> a < b.
Proof.
  unfold Qltb. rewrite Bool.negb_true_iff.
  split; intro H.
  - apply Qnot_le_lt. intro Hle. apply Qle_bool_iff in Hle. congruence.
  - destruct (Qle_bool b a) eqn:E; [|reflexivity].
    apply Qle_bool_iff in E. exfalso. apply (Qlt_not_le _ _ H E).
Qed.

Lemma Qltb_ge (a b : Q) : Qltb a b = false <-> b <= a.
Proof.
  unfold Qltb. rewrite Bool.negb_false_iff. apply Qle_bool_iff.
Qed.

Lemma in_circle_true (p c : point) (r : Q) :
  in_circle p c r = true <-> square_dist c p < r ^ 2.
Proof. unfold in_circle. apply Qltb_lt. Qed.

Lemma in_circle_false (p c : point) (r : Q) :
  in_circle p c r = false <-> r ^ 2 <= square_dist c p.
Proof. unfold in_circle. apply Qltb_ge. Qed.

Lemma sq_nonneg (x : Q) : 0 <= x ^ 2.
Proof.
  assert (E : x ^ 2 == x * x) by ring. rewrite E.
  destruct (Qlt_le_dec x 0); nra.
Qed.

Lemma square_dist_sym (a b : point) : square_dist a b == square_dist b a.
Proof. unfold square_dist. ring. Qed.

Lemma square_dist_nonneg (a b : point) : 0 <= square_dist a b.
Proof.
  unfold square_dist.
  generalize (sq_nonneg (px a - px b)) (sq_nonneg (py a - py b)). lra.
Qed.

(** Each call of [find_intersect] halves the segment: the squared distance
    of the pair of the recursive call is a quarter of the current one. *)
Lemma square_dist_mid_out (inpt outpt : point) :
  square_dist (midpoint outpt inpt) outpt == square_dist inpt outpt / 4.
Proof. unfold square_dist, midpoint, px, py; simpl. field. Qed.

Lemma square_dist_in_mid (inpt outpt : point) :
  square_dist inpt (midpoint outpt inpt) == square_dist inpt outpt / 4.
Proof. unfold square_dist, midpoint, px, py; simpl. field. Qed.

(** ** Termination of the bisection *)

Lemma pow4_pos (n : nat) : 0 < pow4 n.
Proof. induction n as [|n IH]; simpl; lra. Qed.

Lemma pow4_two (k : nat) : inject_Z (2 ^ Z.of_nat k) <= pow4 k.
Proof.
  induction k as [|k IH].
  - simpl. unfold inject_Z. lra.
  - rewrite Nat2Z.inj_succ, Z.pow_succ_r by lia.
    rewrite inject_Z_mult. simpl pow4.
    assert (H2 : inject_Z 2 == 2) by reflexivity.
    rewrite H2. generalize (pow4_pos k). lra.
Qed.

Lemma tolerance_sq_pos : 0 < tolerance_sq.
Proof. reflexivity. Qed.

Section Bisection.

Variables (center : point) (radius : Q).

Lemma within_mid_out n inpt outpt :
  within (S n) inpt outpt -> within n (midpoint outpt inpt) outpt.
Proof.
  unfold within. rewrite square_dist_mid_out. simpl pow4. no_div. lra.
Qed.

Lemma within_in_mid n inpt outpt :
  within (S n) inpt outpt -> within n inpt (midpoint outpt inpt).
Proof.
  unfold within. rewrite square_dist_in_mid. simpl pow4. no_div. lra.
Qed.

Lemma find_intersect_rec_S (fuel : nat) (inpt outpt : point) :
  find_intersect_rec (S fuel) inpt outpt center radius =
  if Qltb (square_dist inpt outpt) tolerance_sq then Some inpt
  else
    let midpt := midpoint outpt inpt in
    if in_circle midpt center radius
    then find_intersect_rec fuel midpt outpt center radius
    else find_intersect_rec fuel inpt midpt center radius.
Proof. reflexivity. Qed.

(** With [S n] levels of recursion a pair within [n] halvings gets its
    answer, and more levels do not change it. *)
Lemma find_intersect_rec_enough (n : nat) :
  forall inpt outpt, within n inpt outpt ->
  (exists p, find_intersect_rec (S n) inpt outpt center radius = Some p) /\
  (forall m, (n <= m)%nat ->
     find_intersect_rec (S m) inpt outpt center radius
     = find_intersect_rec (S n) inpt outpt center radius).
Proof.
  induction n as [|n IH]; intros inpt outpt W.
  - assert (T : Qltb (square_dist inpt outpt) tolerance_sq = true).
    { apply Qltb_lt. unfold within in W. simpl pow4 in W.
      unfold tolerance_sq, tolerance in *. lra. }
    split.
    + exists inpt. simpl. now rewrite T.
    + intros m _. simpl. now rewrite T.
  - split.
    + cbn [find_intersect_rec].
      destruct (Qltb (square_dist inpt outpt) tolerance_sq); [now eexists|].
      cbv zeta.
      destruct (in_circle (midpoint outpt inpt) center radius).
      * apply IH, within_mid_out, W.
      * apply IH, within_in_mid, W.
    + intros m Hm. destruct m as [|m]; [lia|].
      cbn [find_intersect_rec].
      destruct (Qltb (square_dist inpt outpt) tolerance_sq); [reflexivity|].
      cbv zeta.
      destruct (in_circle (midpoint outpt inpt) center radius).
      * apply IH; [apply within_mid_out, W | lia].
      * apply IH; [apply within_in_mid, W | lia].
Qed.

(** [depth] levels are enough. *)
Lemma within_depth (inpt outpt : point) :
  within (S (Z.to_nat (Z.log2 (Qceiling (square_dist inpt outpt / tolerance_sq)))))
         inpt outpt.
Proof.
  unfold within.
  set (s := square_dist inpt outpt).
  set (m := Qceiling (s / tolerance_sq)).
  assert (Hs : s / tolerance_sq <= inject_Z m) by apply Qle_ceiling.
  assert (Hq : s == (s / tolerance_sq) * tolerance_sq)
    by (field; discriminate).
  pose proof tolerance_sq_pos as Ht.
  pose proof (pow4_pos (S (Z.to_nat (Z.log2 m)))) as Hp.
  assert (Hm : inject_Z m < pow4 (S (Z.to_nat (Z.log2 m)))).
  { destruct (Z_lt_le_dec 0 m) as [Hpos | Hneg].
    - destruct (Z.log2_spec m Hpos) as [_ Hlt].
      eapply Qlt_le_trans; [|apply pow4_two].
      rewrite <- Zlt_Qlt.
      rewrite Nat2Z.inj_succ, Z2Nat.id by apply Z.log2_nonneg.
      exact Hlt.
    - eapply Qle_lt_trans; [|exact Hp].
      change 0 with (inject_Z 0). rewrite <- Zle_Qle. exact Hneg. }
  rewrite Hq at 1.
  rewrite (Qmult_comm tolerance_sq).
  apply Qmult_lt_compat_r; [exact Ht|].
  eapply Qle_lt_trans; eassumption.
Qed.

Lemma find_intersect_rec_depth (inpt outpt : point) :
  find_intersect_rec (depth inpt outpt) inpt outpt center radius
  = Some (find_intersect inpt outpt center radius).
Proof.
  unfold find_intersect.
  destruct (find_intersect_rec_enough _ _ _ (within_depth inpt outpt))
    as [[p Hp] _].
  unfold depth. now rewrite Hp.
Qed.

(** Any sufficient number of levels computes [find_intersect]. *)
Lemma find_intersect_rec_within (n : nat) (inpt outpt : point) :
  within n inpt outpt ->
  find_intersect_rec (S n) inpt outpt center radius
  = Some (find_intersect inpt outpt center radius).
Proof.
  intro W.
  rewrite <- find_intersect_rec_depth. unfold depth.
  set (d := S (Z.to_nat (Z.log2 (Qceiling (square_dist inpt outpt / tolerance_sq))))).
  pose proof (within_depth inpt outpt) as Wd. fold d in Wd.
  destruct (find_intersect_rec_enough _ _ _ W) as [_ Sn].
  destruct (find_intersect_rec_enough _ _ _ Wd) as [_ Sd].
  rewrite <- (Sn (Nat.max n d)) by lia.
  rewrite <- (Sd (Nat.max n d)) by lia.
  reflexivity.
Qed.

(** [depth] nested calls, or more, reach the answer. *)
Lemma find_intersect_rec_more (inpt outpt : point) (k : nat) :
  find_intersect_rec (depth inpt outpt + k) inpt outpt center radius
  = Some (find_intersect inpt outpt center radius).
Proof.
  unfold depth.
  destruct (find_intersect_rec_enough _ _ _ (within_depth inpt outpt))
    as [_ Hst].
  cbn [Nat.add]. rewrite Hst by lia.
  apply find_intersect_rec_within, within_depth.
Qed.

(** The recursive equation of the source. *)
Lemma find_intersect_eq (inpt outpt : point) :
  find_intersect inpt outpt center radius =
  if Qltb (square_dist inpt outpt) tolerance_sq then inpt
  else
    let midpt := midpoint outpt inpt in
    if in_circle midpt center radius
    then find_intersect midpt outpt center radius
    else find_intersect inpt midpt center radius.
Proof.
  pose proof (within_depth inpt outpt) as W.
  pose proof (find_intersect_rec_within _ _ _ W) as E.
  rewrite find_intersect_rec_S in E.
  destruct (Qltb (square_dist inpt outpt) tolerance_sq).
  - congruence.
  - cbv zeta in *.
    destruct (in_circle (midpoint outpt inpt) center radius).
    + rewrite (find_intersect_rec_within _ _ _ (within_mid_out _ _ _ W)) in E.
      congruence.
    + rewrite (find_intersect_rec_within _ _ _ (within_in_mid _ _ _ W)) in E.
      congruence.
Qed.

End Bisection.

(** ** Distances over the reals *)

Lemma Q2R_square_dist (a b : point) :
  Q2R (square_dist a b)
  = ((Q2R (px a) - Q2R (px b))² + (Q2R (py a) - Q2R (py b))²)%R.
Proof.
  assert (E : square_dist a b
              == (px a - px b) * (px a - px b) + (py a - py b) * (py a - py b))
    by (unfold square_dist; ring).
  rewrite (Qeq_eqR _ _ E).
  rewrite Q2R_plus, !Q2R_mult, !Q2R_minus. reflexivity.
Qed.

Lemma distance_dist_euc (a b : point) :
  distance a b = dist_euc (Q2R (px a)) (Q2R (py a)) (Q2R (px b)) (Q2R (py b)).
Proof. unfold distance, dist_euc. now rewrite Q2R_square_dist. Qed.

Lemma distance_triangle (a b c : point) :
  (distance a b <= distance a c + distance c b)%R.
Proof. rewrite !distance_dist_euc. apply triangle. Qed.

Lemma distance_sym (a b : point) : distance a b = distance b a.
Proof. unfold distance. now rewrite (Qeq_eqR _ _ (square_dist_sym a b)). Qed.

Lemma distance_nonneg (a b : point) : (0 <= distance a b)%R.
Proof. apply sqrt_pos. Qed.

Lemma Q2R_square_dist_nonneg (a b : point) : (0 <= Q2R (square_dist a b))%R.
Proof.
  replace 0%R with (Q2R 0) by apply RMicromega.Q2R_0.
  apply Qle_Rle, square_dist_nonneg.
Qed.

Lemma Q2R_sq (q : Q) : Q2R (q ^ 2) = ((Q2R q)²)%R.
Proof.
  assert (E : q ^ 2 == q * q) by ring.
  rewrite (Qeq_eqR _ _ E), Q2R_mult. reflexivity.
Qed.

(** Comparing a distance with a non-negative number is comparing the
    squares. *)
Lemma distance_lt_iff (a b : point) (d : Q) :
  0 <= d ->
  (square_dist a b < d ^ 2 <-> (distance a b < Q2R d)%R).
Proof.
  intro Hd.
  assert (HdR : (0 <= Q2R d)%R).
  { replace 0%R with (Q2R 0) by apply RMicromega.Q2R_0. now apply Qle_Rle. }
  unfold distance. split; intro H.
  - rewrite <- (sqrt_Rsqr (Q2R d)) by assumption.
    apply sqrt_lt_1_alt. split; [apply Q2R_square_dist_nonneg|].
    rewrite <- Q2R_sq. now apply Qlt_Rlt.
  - apply Rlt_Qlt. rewrite Q2R_sq.
    rewrite <- (sqrt_Rsqr (Q2R d)) in H by assumption.
    now apply sqrt_lt_0_alt.
Qed.

Lemma distance_ge_iff (a b : point) (d : Q) :
  0 <= d ->
  (d ^ 2 <= square_dist a b <-> (Q2R d <= distance a b)%R).
Proof.
  intro Hd. pose proof (distance_lt_iff a b d Hd) as [H1 H2].
  split; intro H.
  - apply Rnot_lt_le. intro C. apply H2 in C.
    apply (Qlt_not_le _ _ C H).
  - apply Qnot_lt_le. intro C. apply H1 in C.
    apply (Rlt_not_le _ _ C H).
Qed.

(** The test [sqrt(...) < .05] of the source is the test of the model. *)
Lemma sqrt_test (inpt outpt : point) :
  Qltb (square_dist inpt outpt) tolerance_sq = true
  <-> (distance inpt outpt < Q2R tolerance)%R.
Proof.
  rewrite Qltb_lt. apply distance_lt_iff. unfold tolerance. lra.
Qed.

(** ** The runs of the bisection *)

Section Runs.

Variables (center : point) (radius : Q).

Lemma find_intersect_rec_bisects (fuel : nat) :
  forall inpt outpt p,
    find_intersect_rec fuel inpt outpt center radius = Some p ->
    bisects center radius inpt outpt p.
Proof.
  induction fuel as [|fuel IH]; intros inpt outpt p; [discriminate|].
  rewrite find_intersect_rec_S.
  destruct (Qltb (square_dist inpt outpt) tolerance_sq) eqn:T.
  - intros [= <-]. apply bisects_stop. now apply Qltb_lt.
  - apply Qltb_ge in T. cbv zeta.
    destruct (in_circle (midpoint outpt inpt) center radius) eqn:I; intro H.
    + apply bisects_inner; auto.
    + apply bisects_outer; auto.
Qed.

Lemma find_intersect_bisects (inpt outpt : point) :
  bisects center radius inpt outpt (find_intersect inpt outpt center radius).
Proof.
  eapply find_intersect_rec_bisects, find_intersect_rec_depth.
Qed.

(** The point returned is the inside point of the last pair: it is
    inside the circle when the first inside point is. *)
Lemma bisects_inside inpt outpt p :
  bisects center radius inpt outpt p ->
  in_circle inpt center radius = true ->
  in_circle p center radius = true.
Proof. induction 1; auto. Qed.

(** The outside point of the last pair is outside when the first one is,
    and closer than the tolerance to the point returned. *)
Lemma bisects_outside inpt outpt p :
  bisects center radius inpt outpt p ->
  in_circle outpt center radius = false ->
  exists q, in_circle q center radius = false
            /\ square_dist p q < tolerance_sq.
Proof.
  induction 1 as [i o Hd | i o p Hd Hm _ IH | i o p Hd Hm _ IH]; intro Ho.
  - now exists o.
  - now apply IH.
  - now apply IH.
Qed.

(** The point returned lies between the two points of the call. *)
Lemma bisects_between inpt outpt p :
  bisects center radius inpt outpt p -> on_segment inpt outpt p.
Proof.
  induction 1 as [i o Hd | i o p Hd Hm _ IH | i o p Hd Hm _ IH].
  - exists 0. unfold pt_eq, fracpoint, px, py; simpl.
    repeat split; try lra; ring.
  - destruct IH as (t & H0 & H1 & Hx & Hy).
    exists ((1 + t) * (1 # 2)).
    unfold pt_eq, fracpoint, midpoint, px, py in *; simpl in *.
    repeat split; try lra.
    + rewrite Hx. field.
    + rewrite Hy. field.
  - destruct IH as (t & H0 & H1 & Hx & Hy).
    exists (t * (1 # 2)).
    unfold pt_eq, fracpoint, midpoint, px, py in *; simpl in *.
    repeat split; try lra.
    + rewrite Hx. field.
    + rewrite Hy. field.
Qed.

End Runs.

(** A point of the segment is no farther from an end than the other end. *)
Lemma on_segment_square_dist (a b p : point) :
  on_segment a b p -> square_dist p b <= square_dist a b.
Proof.
  intros (t & H0 & H1 & Hx & Hy).
  unfold pt_eq, fracpoint, px, py in *; simpl in *.
  assert (E : square_dist p b == (1 - t) * (1 - t) * square_dist a b).
  { unfold square_dist, px, py. rewrite Hx, Hy. ring. }
  rewrite E. pose proof (square_dist_nonneg a b) as HS.
  assert (Hu : 0 <= 1 - (1 - t) * (1 - t)) by nra.
  pose proof (Qmult_le_0_compat _ _ Hu HS). lra.
Qed.

(** * The boundary solver *)

(** C7. [in_circle(p, center, radius)] is true exactly when the squared
    distance from [p] to the centre is strictly below the squared radius;
    a point whose distance to the centre is the radius is not inside. *)
Theorem in_circle_strict (p center : point) (radius : Q) :
  (in_circle p center radius = true <-> square_dist center p < radius ^ 2)
  /\ (distance p center = Q2R radius -> in_circle p center radius = false).
Proof.
  split; [apply in_circle_true|].
  intro H. apply in_circle_false.
  assert (Hr : 0 <= radius).
  { apply Rle_Qle. rewrite RMicromega.Q2R_0, <- H. apply distance_nonneg. }
  apply distance_ge_iff; [exact Hr|].
  rewrite distance_sym, H. apply Rle_refl.
Qed.

Lemma distance_3_4_5 : distance (3, 4) (0, 0) = Q2R 5.
Proof.
  unfold distance.
  assert (E : square_dist (3, 4) (0, 0) == 5 * 5) by reflexivity.
  rewrite (Qeq_eqR _ _ E), Q2R_mult.
  apply sqrt_square.
  rewrite <- RMicromega.Q2R_0. apply Qle_Rle. discriminate.
Qed.

Lemma in_circle_strict_witness :
  distance (3, 4) (0, 0) = Q2R 5 /\ in_circle (3, 4) (0, 0) 5 = false.
Proof.
  split; [exact distance_3_4_5|].
  apply (proj2 (in_circle_strict (3, 4) (0, 0) 5)). exact distance_3_4_5.
Defined.

(** C5. [find_intersect] returns for every pair of points and every
    circle: the squared distance of the pair is divided by four at each
    recursive call (the distance is halved), and [depth inpt outpt] nested
    calls, or any larger number, reach the answer. *)
Theorem find_intersect_terminates (inpt outpt center : point) (radius : Q) :
  (forall k : nat,
     find_intersect_rec (depth inpt outpt + k) inpt outpt center radius
     = Some (find_intersect inpt outpt center radius))
  /\ square_dist (midpoint outpt inpt) outpt == square_dist inpt outpt / 4
  /\ square_dist inpt (midpoint outpt inpt) == square_dist inpt outpt / 4.
Proof.
  split; [|split; [apply square_dist_mid_out | apply square_dist_in_mid]].
  intro k. apply find_intersect_rec_more.
Qed.

(** C2. For a circle of non-negative radius and a pair of points that
    straddles its boundary, [find_intersect] returns a point [p] of the
    segment between the two points, inside the circle, whose distance to
    the centre differs from the radius by less than the tolerance [.05],
    and no farther from the outside point than the inside point is. *)
Theorem find_intersect_straddle (inside outside center : point) (radius : Q) :
  0 <= radius ->
  in_circle inside center radius = true ->
  in_circle outside center radius = false ->
  let p := find_intersect inside outside center radius in
  (forall k : nat,
     find_intersect_rec (depth inside outside + k) inside outside center radius
     = Some p)
  /\ on_segment inside outside p
  /\ (Rabs (distance p center - Q2R radius) < Q2R tolerance)%R
  /\ in_circle p center radius = true
  /\ (distance p outside <= distance inside outside)%R.
Proof.
  intros Hr Hin Hout p.
  pose proof (find_intersect_bisects center radius inside outside) as Run.
  fold p in Run.
  pose proof (bisects_inside _ _ _ _ _ Run Hin) as Hp.
  pose proof (bisects_between _ _ _ _ _ Run) as Hseg.
  destruct (bisects_outside _ _ _ _ _ Run Hout) as (q & Hq & Hpq).
  split; [intro k; apply find_intersect_rec_more|].
  split; [exact Hseg|].
  split; [|split; [exact Hp|]].
  - apply in_circle_true in Hp. apply in_circle_false in Hq.
    apply (distance_lt_iff _ _ _ Hr) in Hp.
    apply (distance_ge_iff _ _ _ Hr) in Hq.
    assert (Ht : 0 <= tolerance) by (unfold tolerance; lra).
    apply (distance_lt_iff _ _ _ Ht) in Hpq.
    pose proof (distance_triangle center q p) as Tri.
    rewrite (distance_sym p center).
    apply Rabs_def1; lra.
  - unfold distance. apply sqrt_le_1_alt, Qle_Rle.
    now apply on_segment_square_dist.
Qed.

Lemma find_intersect_straddle_witness :
  let inside : point := (0, 0) in
  let outside : point := (5, 0) in
  let center : point := (0, 0) in
  let radius : Q := 1 in
  let p := find_intersect inside outside center radius in
  (forall k : nat,
     find_intersect_rec (depth inside outside + k) inside outside center radius
     = Some p)
  /\ on_segment inside outside p
  /\ (Rabs (distance p center - Q2R radius) < Q2R tolerance)%R
  /\ in_circle p center radius = true
  /\ (distance p outside <= distance inside outside)%R.
Proof.
  apply (find_intersect_straddle (0, 0) (5, 0) (0, 0) 1).
  - discriminate.
  - reflexivity.
  - reflexivity.
Defined.

(** C6. [make_arc(a, b)] is [(a, lerp(a, b, 0.333), lerp(a, b, 0.666), b)]:
    the two inner points are taken at the fractions [0.333] and [0.666] of
    the segment; they are the points at one third and two thirds only when
    [a] and [b] coincide. *)
Theorem make_arc_fractions (a b : point) :
  arc_eq (make_arc a b) (a, lerp a b (333 # 1000), lerp a b (666 # 1000), b)
  /\ (arc_eq (make_arc a b) (a, lerp a b (1 # 3), lerp a b (2 # 3), b)
      <-> pt_eq a b).
Proof.
  destruct a as [ax ay], b as [bx by_].
  unfold arc_eq, make_arc, fracpoint, lerp, pt_eq, frac_333, frac_666, px, py;
    simpl.
  split; [|split].
  - repeat split; ring.
  - intros (_ & [Hx Hy] & _). split; lra.
  - intros [Hx Hy]. repeat split; lra.
Qed.

Lemma make_arc_fractions_witness :
  pt_eq (1, 2) (1, 2)
  /\ arc_eq (make_arc (1, 2) (1, 2))
            ((1, 2), lerp (1, 2) (1, 2) (1 # 3), lerp (1, 2) (1, 2) (2 # 3),
             (1, 2)).
Proof.
  assert (E : pt_eq (1, 2) (1, 2)) by (split; reflexivity).
  split; [exact E|].
  apply (proj2 (proj2 (make_arc_fractions (1, 2) (1, 2)))). exact E.
Defined.

(** C6, as stated, fails from [(0, 0)] to [(3, 0)]: the first inner point
    is [(0.999, 0)], not [(1, 0)]. *)
Lemma make_arc_thirds_counterexample :
  ~ arc_eq (make_arc (0, 0) (3, 0))
           ((0, 0), lerp (0, 0) (3, 0) (1 # 3), lerp (0, 0) (3, 0) (2 # 3),
            (3, 0)).
Proof.
  intros (_ & [Hx _] & _). vm_compute in Hx. discriminate.
Qed.

(** * Trimming *)

(** C1. When [end0] is inside circle 0 and [end1] inside circle 1, and
    neither circle holds both ends, [trim_ends] replaces [end0] by
    [e0 = find_intersect(end0, end1, circle0)] and then corrects [end1]
    against circle 1 as well: by [find_intersect(e0, end1, circle1)] when
    [e0] is inside circle 1, by [find_intersect(end1, e0, circle1)]
    otherwise.  (Only the tests of [end1] against circle 0 and of the two
    ends against circle 1 exclude one another.) *)
Theorem trim_ends_both_circles (end0 end1 p0 p1 : point) (r0 r1 : Q) :
  in_circle end0 p0 r0 = true ->
  in_circle end1 p1 r1 = true ->
  in_circle end0 p0 r0 && in_circle end1 p0 r0 = false ->
  in_circle end0 p1 r1 && in_circle end1 p1 r1 = false ->
  let e0 := find_intersect end0 end1 p0 r0 in
  trim_ends end0 end1 p0 p1 r0 r1
  = (e0, if in_circle e0 p1 r1 then find_intersect e0 end1 p1 r1
         else find_intersect end1 e0 p1 r1).
Proof.
  intros H0 H1 B0 B1 e0. unfold trim_ends.
  rewrite B0, B1. cbn [orb].
  rewrite H0 in *. cbn [andb] in B0. rewrite B0. fold e0.
  destruct (in_circle e0 p1 r1); [reflexivity|].
  now rewrite H1.
Qed.

Lemma trim_ends_both_circles_witness :
  let e0 := find_intersect (0, 0) (10, 0) (0, 0) 1 in
  trim_ends (0, 0) (10, 0) (0, 0) (10, 0) 1 1
  = (e0, if in_circle e0 (10, 0) 1 then find_intersect e0 (10, 0) (10, 0) 1
         else find_intersect (10, 0) e0 (10, 0) 1).
Proof.
  apply (trim_ends_both_circles (0, 0) (10, 0) (0, 0) (10, 0) 1 1);
    reflexivity.
Defined.

(** C1, as stated, fails for the circles of radius 1 around [(0, 0)] and
    [(10, 0)] and the segment between their centres: the segment is
    invalid against both circles in the sense of the claim, and the second
    end comes back changed (it is [(73835/8192, 0)]). *)
Lemma trim_ends_end1_counterexample :
  let end0 : point := (0, 0) in
  let end1 : point := (10, 0) in
  let p0 : point := (0, 0) in
  let p1 : point := (10, 0) in
  in_circle end0 p0 1 = true
  /\ in_circle end1 p1 1 = true
  /\ in_circle end0 p0 1 && in_circle end1 p0 1 = false
  /\ in_circle end0 p1 1 && in_circle end1 p1 1 = false
  /\ pt_eq (snd (trim_ends end0 end1 p0 p1 1 1)) (73835 # 8192, 0)
  /\ ~ pt_eq (snd (trim_ends end0 end1 p0 p1 1 1)) end1.
Proof.
  cbv zeta. repeat split; try reflexivity.
  intros [Hx _]. vm_compute in Hx. discriminate.
Qed.

(** * The path builder *)

Section Render.

Variable LINEMODE : string.

(** [render] returns, sends nothing, and leaves the arcs of
    [render_arcs] in the line. *)
Lemma render_outcome (p0 p1 : point) (st : Line) :
  render LINEMODE p0 p1 st
  = (Ok tt,
     with_derived st
       (fst (render_arcs LINEMODE p0 p1 (m_r0 st) (m_r1 st) (m_path st)))
       (snd (render_arcs LINEMODE p0 p1 (m_r0 st) (m_r1 st) (m_path st)))
       [] [],
     []).
Proof.
  unfold render, bind, get, put. cbn.
  destruct (render_arcs LINEMODE p0 p1 (m_r0 st) (m_r1 st) (m_path st)).
  reflexivity.
Qed.

End Render.

Lemma Qabs_diff_zero (x y : Q) : Qeq_bool (Qabs (x - y)) 0 = true <-> x == y.
Proof.
  rewrite Qeq_bool_iff. split; intro H.
  - revert H. apply Qabs_case; intros; lra.
  - rewrite H. assert (E : y - y == 0) by ring. now rewrite E.
Qed.

(** C3. In simple mode with [p0 = (0, 0)] and [p1 = (0, 10)] the x-delta
    is zero and [render] takes the straight branch: the point buffer holds
    the 4 points [(0,0), (0,5), (0,5), (0,10)] and the index describes 1
    arc.  Three arcs are built by [make_arc] when both deltas are not
    zero; the buffer then holds 12 points, 4 for each arc, and the index
    describes 3 arcs. *)
Theorem render_simple_arcs :
  (forall st : Line,
     let o := render "simple" (0, 0) (0, 10) st in
     returned o = Ok tt
     /\ (exists pts, m_arcpoints (state_after o) = Some pts
                     /\ length pts = 4%nat
                     /\ entries_eq pts [Pt (0, 0); Pt (0, 5); Pt (0, 5);
                                        Pt (0, 10)])
     /\ m_arcindex (state_after o) = Some [(0, 1, 2, 3)%nat])
  /\ (forall (st : Line) (p0 p1 : point),
        ~ px p0 == px p1 -> ~ py p0 == py p1 ->
        let o := render "simple" p0 p1 st in
        returned o = Ok tt
        /\ (exists w1 w2 pts,
              m_arcpoints (state_after o) = Some pts
              /\ pts = arc_entries (make_arc p0 w1)
                       ++ arc_entries (make_arc w1 w2)
                       ++ arc_entries (make_arc w2 p1)
              /\ length pts = 12%nat)
        /\ (exists idx, m_arcindex (state_after o) = Some idx
                        /\ length idx = 3%nat)).
Proof.
  split.
  - intros st o. subst o. rewrite render_outcome.
    split; [reflexivity|]. split; [|reflexivity].
    eexists. split; [reflexivity|]. split; [reflexivity|].
    repeat constructor.
  - intros st [x0 y0] [x1 y1] Hx Hy o. subst o. rewrite render_outcome.
    cbn [px py fst snd] in Hx, Hy.
    split; [reflexivity|].
    assert (Ex : Qeq_bool (Qabs (x0 - x1)) 0 = false).
    { destruct (Qeq_bool (Qabs (x0 - x1)) 0) eqn:E; [|reflexivity].
      apply Qabs_diff_zero in E. contradiction. }
    assert (Ey : Qeq_bool (Qabs (y0 - y1)) 0 = false).
    { destruct (Qeq_bool (Qabs (y0 - y1)) 0) eqn:E; [|reflexivity].
      apply Qabs_diff_zero in E. contradiction. }
    unfold state_after, with_derived, render_arcs. cbn [fst snd String.eqb Ascii.eqb Bool.eqb m_arcpoints m_arcindex].
    rewrite Ex, Ey. cbn [orb].
    destruct (Qltb (Qabs (y0 - y1)) (Qabs (x0 - x1))).
    + split.
      * exists ((x0 + x1) / 2, y0), ((x0 + x1) / 2, y1). eexists.
        split; [reflexivity|]. split; reflexivity.
      * eexists. split; reflexivity.
    + split.
      * exists (x0, (y0 + y1) / 2), (x1, (y0 + y1) / 2). eexists.
        split; [reflexivity|]. split; reflexivity.
      * eexists. split; reflexivity.
Qed.

Lemma render_simple_arcs_witness :
  let o := render "simple" (0, 0) (3, 10) init in
  (exists w1 w2 pts,
     m_arcpoints (state_after o) = Some pts
     /\ pts = arc_entries (make_arc (0, 0) w1)
              ++ arc_entries (make_arc w1 w2)
              ++ arc_entries (make_arc w2 (3, 10))
     /\ length pts = 12%nat)
  /\ (exists idx, m_arcindex (state_after o) = Some idx /\ length idx = 3%nat).
Proof.
  apply (proj2 render_simple_arcs init (0, 0) (3, 10)); discriminate.
Defined.

(** C3, as stated, fails: on those end points the buffer does not hold 9
    points and the index does not describe 3 arcs. *)
Lemma render_simple_counterexample :
  let st := update init None (Some (0, 0)) (Some (0, 10)) 1 1 None None in
  let o := render "simple" (0, 0) (0, 10) st in
  ~ (exists pts idx,
       m_arcpoints (state_after o) = Some pts
       /\ m_arcindex (state_after o) = Some idx
       /\ length pts = 9%nat /\ length idx = 3%nat).
Proof.
  intros st o (pts & idx & Hp & Hi & Lp & Li).
  subst o. rewrite render_outcome in Hp, Hi.
  vm_compute in Hi. injection Hi as <-. discriminate.
Qed.

(** C4. In curves mode with [p0 = (0, 0)], [p1 = (10, 4)] and radii 1 the
    x-delta is the larger one and the two control points are [(5, 0)] and
    [(5, 4)].  After [trim_ends] the two end points of the stored arc are
    [(125/128, 0)] and [(1155/128, 4)]: each lies inside its circle, at a
    distance from the centre between [1 - .05] and 1, both excluded
    ([find_intersect] returns the inside point of its last pair). *)
Theorem render_curves_trimmed (st : Line) :
  m_r0 st = 1 -> m_r1 st = 1 ->
  let p0 : point := (0, 0) in
  let p1 : point := (10, 4) in
  let o := render "curves" p0 p1 st in
  returned o = Ok tt
  /\ exists a0 a1 a2 a3,
       m_arcpoints (state_after o) = Some [Pt a0; Pt a1; Pt a2; Pt a3]
       /\ m_arcindex (state_after o) = Some [(0, 1, 2, 3)%nat]
       /\ pt_eq a1 (5, 0) /\ pt_eq a2 (5, 4)
       /\ pt_eq a0 (125 # 128, 0) /\ pt_eq a3 (1155 # 128, 4)
       /\ in_circle a0 p0 1 = true /\ in_circle a3 p1 1 = true
       /\ (Q2R (1 - tolerance) < distance a0 p0 < Q2R 1)%R
       /\ (Q2R (1 - tolerance) < distance a3 p1 < Q2R 1)%R.
Proof.
  intros R0 R1 p0 p1 o. subst o p0 p1. rewrite render_outcome, R0, R1.
  split; [reflexivity|].
  unfold state_after, with_derived.
  cbn [fst snd m_arcpoints m_arcindex].
  assert (near : forall a c : point,
            (96 # 100) ^ 2 <= square_dist a c -> square_dist a c < 1 ^ 2 ->
            (Q2R (1 - tolerance) < distance a c < Q2R 1)%R).
  { intros a c Hlo Hhi. split.
    - apply Rlt_le_trans with (Q2R (96 # 100)).
      + apply Qlt_Rlt. reflexivity.
      + apply distance_ge_iff; [discriminate | exact Hlo].
    - apply distance_lt_iff; [discriminate | exact Hhi]. }
  do 4 eexists.
  split; [vm_compute; reflexivity|].
  split; [vm_compute; reflexivity|].
  repeat split; try reflexivity;
    try (apply near; vm_compute; solve [reflexivity | discriminate]).
Qed.

Lemma render_curves_trimmed_witness :
  let st := update init None (Some (0, 0)) (Some (10, 4)) 1 1 None None in
  let o := render "curves" (0, 0) (10, 4) st in
  exists a0 a1 a2 a3,
    m_arcpoints (state_after o) = Some [Pt a0; Pt a1; Pt a2; Pt a3]
    /\ m_arcindex (state_after o) = Some [(0, 1, 2, 3)%nat]
    /\ pt_eq a1 (5, 0) /\ pt_eq a2 (5, 4)
    /\ pt_eq a0 (125 # 128, 0) /\ pt_eq a3 (1155 # 128, 4)
    /\ in_circle a0 (0, 0) 1 = true /\ in_circle a3 (10, 4) 1 = true
    /\ (Q2R (1 - tolerance) < distance a0 (0, 0)%Q < Q2R 1)%R
    /\ (Q2R (1 - tolerance) < distance a3 (10, 4)%Q < Q2R 1)%R.
Proof.
  intros st o.
  apply (render_curves_trimmed st); reflexivity.
Defined.

(** C4, as stated, fails: the end points of the stored arc are not at
    distance 1 or more from the centres. *)
Lemma render_curves_counterexample :
  let st := update init None (Some (0, 0)) (Some (10, 4)) 1 1 None None in
  let o := render "curves" (0, 0) (10, 4) st in
  ~ (exists a0 a1 a2 a3,
       m_arcpoints (state_after o) = Some [Pt a0; Pt a1; Pt a2; Pt a3]
       /\ (Q2R 1 <= distance a0 (0, 0)%Q)%R
       /\ (Q2R 1 <= distance a3 (10, 4)%Q)%R).
Proof.
  intros st o (a0 & a1 & a2 & a3 & H & D0 & _).
  subst o. rewrite render_outcome in H.
  vm_compute in H. injection H as <- _ _ _.
  apply distance_ge_iff in D0; [|discriminate].
  vm_compute in D0. now apply D0.
Qed.

(** * The emitter *)

Section Draw.

Variable LINEMODE : string.
Variable GRAPHMODES : Z.
Variable cubic_spline :
  point -> point -> point -> point -> Z -> list point * list nat.

(** The first statement of [draw] returns and sends nothing. *)
Lemma draw_render_outcome (st : Line) :
  draw_render LINEMODE st
  = (Ok tt, state_after (draw_render LINEMODE st), []).
Proof.
  unfold draw_render, bind, get, state_after. cbn.
  destruct (m_p0 st) as [p0|]; [destruct (m_p1 st) as [p1|]|];
    try rewrite render_outcome; reflexivity.
Qed.

(** It keeps the field and the color, and the whole line when an end
    point is missing. *)
Lemma draw_render_field (st : Line) :
  m_field (state_after (draw_render LINEMODE st)) = m_field st.
Proof.
  unfold draw_render, bind, get, state_after. cbn.
  destruct (m_p0 st) as [p0|]; [destruct (m_p1 st) as [p1|]|];
    try rewrite render_outcome; reflexivity.
Qed.

Lemma draw_render_color (st : Line) :
  m_color (state_after (draw_render LINEMODE st)) = m_color st.
Proof.
  unfold draw_render, bind, get, state_after. cbn.
  destruct (m_p0 st) as [p0|]; [destruct (m_p1 st) as [p1|]|];
    try rewrite render_outcome; reflexivity.
Qed.

Lemma draw_render_skipped (st : Line) :
  m_p0 st = None \/ m_p1 st = None ->
  state_after (draw_render LINEMODE st) = st.
Proof.
  unfold draw_render, bind, get, state_after. cbn.
  intros [H | H]; rewrite H; [|destruct (m_p0 st)]; reflexivity.
Qed.

(** The guard of the second statement: nothing happens when one of the
    four attributes is false. *)
Lemma draw_output_closed (st : Line) :
  m_field st = None \/ m_color st = None \/ chain_empty st ->
  draw_output GRAPHMODES cubic_spline st = (Ok tt, st, []).
Proof.
  unfold draw_output, bind, get, chain_empty, falsy. cbn.
  destruct (m_field st) as [field|];
    destruct (m_arcpoints st) as [[|e arcpoints]|];
    destruct (m_arcindex st) as [[|a arcindex]|];
    destruct (m_color st) as [c|];
    try reflexivity.
  intros [H | [H | [[H | H] | [H | H]]]]; discriminate.
Qed.

Lemma draw_closed (st : Line) :
  m_field st = None \/ m_color st = None
  \/ chain_empty (state_after (draw_render LINEMODE st)) ->
  draw LINEMODE GRAPHMODES cubic_spline st
  = (Ok tt, state_after (draw_render LINEMODE st), []).
Proof.
  intro H. unfold draw, bind.
  rewrite draw_render_outcome, draw_output_closed; [reflexivity|].
  rewrite draw_render_field, draw_render_color. exact H.
Qed.

(** C8. A draw cycle in which the color is unset, or in which the arc
    chain that [draw] holds after its render step is empty or unset,
    sends nothing to the screen, nothing to the laser, and raises no
    error.  When [p0] or [p1] is unset the render step is skipped, and
    that chain is the one the line held before the call. *)
Theorem draw_suppressed (st : Line) :
  let st' := state_after (draw_render LINEMODE st) in
  (m_p0 st = None \/ m_p1 st = None -> st' = st)
  /\ (m_color st = None \/ chain_empty st' ->
      draw LINEMODE GRAPHMODES cubic_spline st = (Ok tt, st', [])).
Proof.
  split.
  - apply draw_render_skipped.
  - intro H. apply draw_closed. tauto.
Qed.

(** C9. A draw cycle in which the field is unset sends nothing and raises
    no error, whatever the end points, the color and the arc chain. *)
Theorem draw_without_field (st : Line) :
  m_field st = None ->
  draw LINEMODE GRAPHMODES cubic_spline st
  = (Ok tt, state_after (draw_render LINEMODE st), []).
Proof. intro H. apply draw_closed. now left. Qed.

End Draw.

(** Pathfinding leaves its locals as they are on a path whose pairs are
    all skipped. *)
Lemma path_loop_all_skipped (p0 p1 : point) (r0 r1 : Q) (path : list point) :
  all_skipped p0 p1 r0 r1 path = true ->
  forall npath lastpt,
    path_loop p0 p1 r0 r1 path npath lastpt = (npath, lastpt).
Proof.
  induction path as [|a rest IH]; intros H npath lastpt; [reflexivity|].
  destruct rest as [|b rest']; [reflexivity|].
  cbn [all_skipped] in H. apply andb_prop in H as [Hs Hr].
  unfold skipped in Hs. cbn [path_loop]. rewrite Hs.
  apply IH, Hr.
Qed.

Section Pathfinding.

Variable GRAPHMODES : Z.
Variable cubic_spline :
  point -> point -> point -> point -> Z -> list point * list nat.

(** C10. In pathfinding mode, when every pair of consecutive way points
    is skipped, [render] leaves the point buffer with the placeholder
    [[]] alone and an empty arc index; [draw] then sends nothing and
    reads nothing from the buffer: it returns without an [IndexError]. *)
Theorem pathfinding_all_skipped (st : Line) (p0 p1 : point) :
  m_p0 st = Some p0 -> m_p1 st = Some p1 ->
  all_skipped p0 p1 (m_r0 st) (m_r1 st) (m_path st) = true ->
  let o := render "pathfinding" p0 p1 st in
  returned o = Ok tt
  /\ m_arcpoints (state_after o) = Some [NoPt]
  /\ m_arcindex (state_after o) = Some []
  /\ draw "pathfinding" GRAPHMODES cubic_spline (state_after o)
     = (Ok tt, state_after o, [])
  /\ draw "pathfinding" GRAPHMODES cubic_spline st
     = (Ok tt, state_after o, []).
Proof.
  intros H0 H1 Hs o. subst o. rewrite render_outcome.
  assert (E : render_arcs "pathfinding" p0 p1 (m_r0 st) (m_r1 st) (m_path st)
              = (Some [NoPt], Some [])).
  { unfold render_arcs. cbn [String.eqb Ascii.eqb Bool.eqb].
    now rewrite (path_loop_all_skipped _ _ _ _ _ Hs). }
  rewrite E. cbn [fst snd returned state_after].
  split; [reflexivity|]. split; [reflexivity|]. split; [reflexivity|].
  assert (R : forall s : Line,
            m_p0 s = Some p0 -> m_p1 s = Some p1 ->
            m_r0 s = m_r0 st -> m_r1 s = m_r1 st -> m_path s = m_path st ->
            state_after (draw_render "pathfinding" s)
            = with_derived s (Some [NoPt]) (Some []) [] []).
  { intros s S0 S1 Sr0 Sr1 Sp.
    unfold draw_render, bind, get, state_after. cbn.
    rewrite S0, S1, render_outcome, Sr0, Sr1, Sp, E. reflexivity. }
  split.
  - rewrite draw_closed.
    + rewrite R by (cbn; auto). reflexivity.
    + right; right. rewrite R by (cbn; auto). right. now right.
  - rewrite draw_closed.
    + rewrite R by auto. reflexivity.
    + right; right. rewrite R by auto. right. now right.
Qed.

End Pathfinding.

(** ** Concrete draw cycles *)

Lemma draw_suppressed_witness :
  m_color init = None
  /\ draw "direct" graphic_modes chord_spline init = (Ok tt, init, []).
Proof.
  split; [reflexivity|].
  apply (proj2 (draw_suppressed "direct" graphic_modes chord_spline init)).
  left. reflexivity.
Defined.

(** C8, as stated, fails for a line that was drawn once and whose first
    end point is then unset: [render] is skipped, the chain of the earlier
    cycle is still there, and [draw] sends it to both outputs. *)
Lemma draw_stale_counterexample :
  let st1 := update init (Some floor_field) (Some (0, 0)) (Some (10, 0)) 1 1
               (Some white) None in
  let st2 := state_after (draw "direct" graphic_modes chord_spline st1) in
  let st3 := update st2 (Some floor_field) None (Some (10, 0)) 1 1
               (Some white) None in
  let o := draw "direct" graphic_modes chord_spline st3 in
  m_p0 st3 = None
  /\ returned o = Ok tt
  /\ In (send_laser "/laser/set/color" [1; 1; 1]) (emitted o)
  /\ In (glColor3f 1 1 1) (emitted o)
  /\ emitted o <> [].
Proof.
  cbv zeta. repeat split; try (vm_compute; tauto).
  vm_compute. discriminate.
Qed.

Lemma draw_without_field_witness :
  let st := update init None (Some (0, 0)) (Some (10, 0)) 1 1
              (Some white) None in
  let o := draw "direct" graphic_modes chord_spline st in
  m_field st = None
  /\ m_arcindex (state_after o) = Some [(0, 1, 2, 3)%nat]
  /\ o = (Ok tt, state_after (draw_render "direct" st), []).
Proof.
  cbv zeta. split; [reflexivity|]. split; [reflexivity|].
  apply (draw_without_field "direct" graphic_modes chord_spline).
  reflexivity.
Defined.

Lemma pathfinding_all_skipped_witness :
  let p0 : point := (0, 0) in
  let p1 : point := (10, 4) in
  let st := update init (Some floor_field) (Some p0) (Some p1) 1 1
              (Some white) (Some [(0, 0); (1 # 2, 0); (0, 1 # 2)]) in
  let o := render "pathfinding" p0 p1 st in
  returned o = Ok tt
  /\ m_arcpoints (state_after o) = Some [NoPt]
  /\ m_arcindex (state_after o) = Some []
  /\ draw "pathfinding" graphic_modes chord_spline (state_after o)
     = (Ok tt, state_after o, [])
  /\ draw "pathfinding" graphic_modes chord_spline st
     = (Ok tt, state_after o, []).
Proof.
  intros p0 p1 st.
  apply (pathfinding_all_skipped graphic_modes chord_spline st p0 p1);
    reflexivity.
Defined.

(** * Further properties of the boundary solver *)

(** X1. [in_circle] squares the radius: its sign does not matter, and a
    circle of radius 0 holds no point, not even its centre. *)
Theorem in_circle_radius_sign (p center : point) (radius : Q) :
  in_circle p center (- radius) = in_circle p center radius
  /\ in_circle p center 0 = false.
Proof.
  split.
  - destruct (in_circle p center radius) eqn:E.
    + apply in_circle_true in E. apply in_circle_true.
      assert (H : (- radius) ^ 2 == radius ^ 2) by ring. now rewrite H.
    + apply in_circle_false in E. apply in_circle_false.
      assert (H : (- radius) ^ 2 == radius ^ 2) by ring. now rewrite H.
  - apply in_circle_false.
    assert (H : 0 ^ 2 == 0) by ring. rewrite H. apply square_dist_nonneg.
Qed.

(** The disc is convex: the middle of two inside points is inside. *)
Lemma in_circle_midpoint (a b center : point) (radius : Q) :
  in_circle a center radius = true ->
  in_circle b center radius = true ->
  in_circle (midpoint a b) center radius = true.
Proof.
  rewrite !in_circle_true. intros Ha Hb.
  assert (E : square_dist center (midpoint a b)
              == (square_dist center a + square_dist center b) * (1 # 2)
                 - ((px a - px b) ^ 2 + (py a - py b) ^ 2) * (1 # 4)).
  { unfold square_dist, midpoint, px, py; simpl. field. }
  rewrite E.
  pose proof (sq_nonneg (fst a - fst b)).
  pose proof (sq_nonneg (snd a - snd b)).
  unfold px, py. lra.
Qed.

(** X2. Whatever the two points and the circle, [find_intersect] returns a
    point of the segment between them, which is the first point itself or
    a point inside the circle, and which is no farther from the second
    point than the first point is. *)
Theorem find_intersect_any (inpt outpt center : point) (radius : Q) :
  let p := find_intersect inpt outpt center radius in
  on_segment inpt outpt p
  /\ (p = inpt \/ in_circle p center radius = true)
  /\ (distance p outpt <= distance inpt outpt)%R.
Proof.
  intro p.
  pose proof (find_intersect_bisects center radius inpt outpt) as Run.
  fold p in Run.
  pose proof (bisects_between _ _ _ _ _ Run) as Hseg.
  split; [exact Hseg|]. split.
  - clear Hseg. induction Run as [i o Hd | i o q Hd Hm _ IH | i o q Hd Hm _ IH].
    + now left.
    + right. destruct IH as [-> | IH]; assumption.
    + exact IH.
  - unfold distance. apply sqrt_le_1_alt, Qle_Rle.
    now apply on_segment_square_dist.
Qed.

(** A run between two inside points only moves towards the second one. *)
Lemma bisects_both_inside (center : point) (radius : Q) inpt outpt p :
  bisects center radius inpt outpt p ->
  in_circle inpt center radius = true ->
  in_circle outpt center radius = true ->
  in_circle p center radius = true /\ square_dist p outpt < tolerance_sq.
Proof.
  induction 1 as [i o Hd | i o q Hd Hm _ IH | i o q Hd Hm _ IH];
    intros Hi Ho.
  - now split.
  - now apply IH.
  - rewrite (in_circle_midpoint o i center radius Ho Hi) in Hm. discriminate.
Qed.

(** X3. Called on two points that are both inside the circle,
    [find_intersect] does not find the boundary: it returns a point inside
    the circle, closer than [.05] to the second point. *)
Theorem find_intersect_both_inside (inpt outpt center : point) (radius : Q) :
  in_circle inpt center radius = true ->
  in_circle outpt center radius = true ->
  let p := find_intersect inpt outpt center radius in
  in_circle p center radius = true
  /\ (distance p outpt < Q2R tolerance)%R.
Proof.
  intros Hi Ho p.
  destruct (bisects_both_inside _ _ _ _ _
              (find_intersect_bisects center radius inpt outpt) Hi Ho)
    as [Hp Hd].
  split; [exact Hp|].
  apply distance_lt_iff; [unfold tolerance; lra | exact Hd].
Qed.

Lemma find_intersect_both_inside_witness :
  let inpt : point := (0, 0) in
  let outpt : point := (1 # 2, 0) in
  let center : point := (0, 0) in
  let p := find_intersect inpt outpt center 1 in
  in_circle p center 1 = true /\ (distance p outpt < Q2R tolerance)%R.
Proof.
  apply (find_intersect_both_inside (0, 0) (1 # 2, 0) (0, 0) 1); reflexivity.
Defined.

Lemma square_dist_in_field (a b : point) :
  in_field a -> in_field b -> square_dist a b <= 12800000.
Proof.
  unfold in_field, xmin_field, xmax_field, ymin_field, ymax_field, square_dist.
  intros (A1 & A2 & A3 & A4) (B1 & B2 & B3 & B4).
  set (dx := px a - px b). set (dy := py a - py b).
  assert (Ex : dx ^ 2 == dx * dx) by ring.
  assert (Ey : dy ^ 2 == dy * dy) by ring.
  rewrite Ex, Ey.
  assert (Hx : 0 <= (3200 - dx) * (3200 + dx)).
  { apply Qmult_le_0_compat; subst dx; lra. }
  assert (Hy : 0 <= (1600 - dy) * (1600 + dy)).
  { apply Qmult_le_0_compat; subst dy; lra. }
  lra.
Qed.

(** X4. For two points of the field ([config.xmin_field] to
    [config.ymax_field]) the recursion of [find_intersect] is at most 34
    calls deep, whatever the circle. *)
Theorem find_intersect_depth_in_field (inpt outpt center : point) (radius : Q) :
  in_field inpt -> in_field outpt ->
  (depth inpt outpt <= 34)%nat
  /\ find_intersect_rec 34 inpt outpt center radius
     = Some (find_intersect inpt outpt center radius).
Proof.
  intros Hi Ho.
  assert (D : (depth inpt outpt <= 34)%nat).
  { unfold depth.
    pose proof (square_dist_in_field _ _ Hi Ho) as Hs.
    assert (Hq : square_dist inpt outpt / tolerance_sq
                 <= 12800000 / tolerance_sq).
    { unfold Qdiv. apply Qmult_le_compat_r; [exact Hs | discriminate]. }
    apply Qceiling_resp_le in Hq.
    apply Z.log2_le_mono in Hq.
    change (Z.log2 (Qceiling (12800000 / tolerance_sq))) with 32%Z in Hq.
    pose proof (Z.log2_nonneg
                  (Qceiling (square_dist inpt outpt / tolerance_sq))).
    lia. }
  split; [exact D|].
  replace 34%nat with (depth inpt outpt + (34 - depth inpt outpt))%nat by lia.
  apply find_intersect_rec_more.
Qed.

Lemma find_intersect_depth_in_field_witness :
  let inpt : point := (- 1600, 0) in
  let outpt : point := (1600, 1600) in
  (depth inpt outpt <= 34)%nat
  /\ find_intersect_rec 34 inpt outpt (0, 0) 75
     = Some (find_intersect inpt outpt (0, 0) 75).
Proof.
  apply (find_intersect_depth_in_field (- 1600, 0) (1600, 1600) (0, 0) 75);
    unfold in_field, xmin_field, xmax_field, ymin_field, ymax_field, px, py;
    simpl; repeat split; discriminate.
Defined.

(** * Further properties of the trimming *)

Lemma on_segment_start (a b : point) : on_segment a b a.
Proof.
  exists 0. unfold pt_eq, fracpoint, px, py; simpl.
  repeat split; try lra; ring.
Qed.

Lemma on_segment_end (a b : point) : on_segment a b b.
Proof.
  exists 1. unfold pt_eq, fracpoint, px, py; simpl.
  repeat split; try lra; ring.
Qed.

(** A point between two points of a segment is on the segment. *)
Lemma on_segment_sub (a b a' b' p : point) :
  on_segment a b a' -> on_segment a b b' -> on_segment a' b' p ->
  on_segment a b p.
Proof.
  intros (s & S0 & S1 & Sx & Sy) (t & T0 & T1 & Tx & Ty)
         (u & U0 & U1 & Ux & Uy).
  unfold pt_eq, fracpoint, px, py in *; simpl in *.
  exists (s + u * (t - s)).
  assert (Hus : 0 <= u * s) by (apply Qmult_le_0_compat; lra).
  assert (Hut : 0 <= u * t) by (apply Qmult_le_0_compat; lra).
  assert (Hus' : 0 <= (1 - u) * s) by (apply Qmult_le_0_compat; lra).
  assert (Hus1 : 0 <= u * (1 - t)) by (apply Qmult_le_0_compat; lra).
  assert (Hut1 : 0 <= (1 - u) * (1 - s)) by (apply Qmult_le_0_compat; lra).
  unfold pt_eq, fracpoint, px, py; simpl.
  repeat split; try lra.
  - rewrite Ux, Tx, Sx. ring.
  - rewrite Uy, Ty, Sy. ring.
Qed.

Lemma find_intersect_on_segment (a b a' b' center : point) (radius : Q) :
  on_segment a b a' -> on_segment a b b' ->
  on_segment a b (find_intersect a' b' center radius).
Proof.
  intros Ha Hb. apply (on_segment_sub a b a' b'); auto.
  apply (bisects_between center radius), find_intersect_bisects.
Qed.

Lemma trim_ends_stays (end0 end1 p0 p1 : point) (r0 r1 : Q) :
  on_segment end0 end1 (fst (trim_ends end0 end1 p0 p1 r0 r1))
  /\ on_segment end0 end1 (snd (trim_ends end0 end1 p0 p1 r0 r1)).
Proof.
  pose proof (on_segment_start end0 end1) as S0.
  pose proof (on_segment_end end0 end1) as S1.
  unfold trim_ends.
  destruct ((in_circle end0 p0 r0 && in_circle end1 p0 r0)
            || (in_circle end0 p1 r1 && in_circle end1 p1 r1));
    [now split|].
  set (e0 := if in_circle end0 p0 r0
             then find_intersect end0 end1 p0 r0 else end0).
  assert (H0 : on_segment end0 end1 e0).
  { subst e0. destruct (in_circle end0 p0 r0);
      [now apply find_intersect_on_segment | exact S0]. }
  destruct (in_circle end1 p0 r0);
    [split; [now apply find_intersect_on_segment | exact S1]|].
  destruct (in_circle e0 p1 r1);
    [split; [exact H0 | now apply find_intersect_on_segment]|].
  destruct (in_circle end1 p1 r1);
    [split; [exact H0 | now apply find_intersect_on_segment]|].
  now split.
Qed.

(** X5. The two points that [trim_ends] returns lie on the segment it
    was given, whatever the circles. *)
Theorem trim_ends_on_segment (end0 end1 p0 p1 : point) (r0 r1 : Q) :
  let '(e0, e1) := trim_ends end0 end1 p0 p1 r0 r1 in
  on_segment end0 end1 e0 /\ on_segment end0 end1 e1.
Proof.
  pose proof (trim_ends_stays end0 end1 p0 p1 r0 r1) as H.
  now destruct (trim_ends end0 end1 p0 p1 r0 r1).
Qed.

(** X6. [trim_ends] returns the two ends as they are when both lie inside
    the same circle, and when both lie outside the two circles. *)
Theorem trim_ends_unchanged (end0 end1 p0 p1 : point) (r0 r1 : Q) :
  (in_circle end0 p0 r0 = true /\ in_circle end1 p0 r0 = true)
  \/ (in_circle end0 p1 r1 = true /\ in_circle end1 p1 r1 = true)
  \/ (in_circle end0 p0 r0 = false /\ in_circle end1 p0 r0 = false
      /\ in_circle end0 p1 r1 = false /\ in_circle end1 p1 r1 = false) ->
  trim_ends end0 end1 p0 p1 r0 r1 = (end0, end1).
Proof.
  unfold trim_ends.
  intros [[A B] | [[A B] | (A & B & C & D)]].
  - now rewrite A, B.
  - rewrite A, B. cbn [andb]. now rewrite Bool.orb_true_r.
  - now rewrite A, B, C, D.
Qed.

Lemma trim_ends_unchanged_witness :
  trim_ends (3, 0) (7, 0) (0, 0) (10, 0) 1 1 = ((3, 0), (7, 0)).
Proof.
  apply (trim_ends_unchanged (3, 0) (7, 0) (0, 0) (10, 0) 1 1).
  right; right. repeat split; reflexivity.
Defined.

(** The point found between an inside and an outside point is inside, and
    closer than the tolerance to the boundary. *)
Lemma find_intersect_near_boundary (inside outside center : point) (radius : Q) :
  0 <= radius ->
  in_circle inside center radius = true ->
  in_circle outside center radius = false ->
  let p := find_intersect inside outside center radius in
  in_circle p center radius = true
  /\ (Rabs (distance p center - Q2R radius) < Q2R tolerance)%R.
Proof.
  intros Hr Hin Hout p.
  pose proof (find_intersect_bisects center radius inside outside) as Run.
  fold p in Run.
  pose proof (bisects_inside _ _ _ _ _ Run Hin) as Hp.
  destruct (bisects_outside _ _ _ _ _ Run Hout) as (q & Hq & Hpq).
  split; [exact Hp|].
  apply in_circle_true in Hp. apply in_circle_false in Hq.
  apply (distance_lt_iff _ _ _ Hr) in Hp.
  apply (distance_ge_iff _ _ _ Hr) in Hq.
  assert (Ht : 0 <= tolerance) by (unfold tolerance; lra).
  apply (distance_lt_iff _ _ _ Ht) in Hpq.
  pose proof (distance_triangle center q p) as Tri.
  rewrite (distance_sym p center).
  apply Rabs_def1; lra.
Qed.

(** A point inside one of two circles that do not overlap is outside the
    other one. *)
Lemma disjoint_circles_inside (p0 p1 : point) (r0 r1 : Q) (q : point) :
  disjoint_circles p0 p1 r0 r1 ->
  in_circle q p0 r0 = true -> in_circle q p1 r1 = false.
Proof.
  intros (H0 & H1 & Hd) Hq.
  apply in_circle_false. apply (distance_ge_iff _ _ _ H1).
  apply in_circle_true in Hq. apply (distance_lt_iff _ _ _ H0) in Hq.
  assert (H01 : 0 <= r0 + r1) by lra.
  apply (distance_ge_iff _ _ _ H01) in Hd. rewrite Q2R_plus in Hd.
  pose proof (distance_triangle p0 p1 q) as Tri.
  rewrite (distance_sym q p1) in Tri. lra.
Qed.

(** X7. Between two circles that do not overlap, a segment that starts
    inside circle 0 and ends outside both circles has its first end moved
    to [find_intersect(end0, end1, circle0)], a point inside circle 0 and
    closer than [.05] to its boundary; the second end is kept. *)
Theorem trim_ends_near_end (end0 end1 p0 p1 : point) (r0 r1 : Q) :
  disjoint_circles p0 p1 r0 r1 ->
  in_circle end0 p0 r0 = true ->
  in_circle end1 p0 r0 = false ->
  in_circle end1 p1 r1 = false ->
  let e0 := find_intersect end0 end1 p0 r0 in
  trim_ends end0 end1 p0 p1 r0 r1 = (e0, end1)
  /\ in_circle e0 p0 r0 = true
  /\ (Rabs (distance e0 p0 - Q2R r0) < Q2R tolerance)%R.
Proof.
  intros D A B C e0.
  destruct D as (H0 & H1 & Hd).
  destruct (find_intersect_near_boundary end0 end1 p0 r0 H0 A B) as [I N].
  fold e0 in I, N.
  split; [|now split].
  unfold trim_ends. rewrite A, B, C. cbn [andb orb].
  rewrite Bool.andb_false_r. fold e0.
  now rewrite (disjoint_circles_inside p0 p1 r0 r1 e0 (conj H0 (conj H1 Hd)) I).
Qed.

Lemma trim_ends_near_end_witness :
  let end0 : point := (0, 0) in
  let end1 : point := (5, 0) in
  let p0 : point := (0, 0) in
  let p1 : point := (10, 4) in
  let e0 := find_intersect end0 end1 p0 1 in
  trim_ends end0 end1 p0 p1 1 1 = (e0, end1)
  /\ in_circle e0 p0 1 = true
  /\ (Rabs (distance e0 p0 - Q2R 1) < Q2R tolerance)%R.
Proof.
  apply (trim_ends_near_end (0, 0) (5, 0) (0, 0) (10, 4) 1 1);
    try reflexivity.
  unfold disjoint_circles. repeat split; discriminate.
Defined.

(** X8. A segment that starts outside both circles and ends inside
    circle 1 only has its second end moved to
    [find_intersect(end1, end0, circle1)], a point inside circle 1 and
    closer than [.05] to its boundary; the first end is kept. *)
Theorem trim_ends_far_end (end0 end1 p0 p1 : point) (r0 r1 : Q) :
  0 <= r1 ->
  in_circle end0 p0 r0 = false ->
  in_circle end0 p1 r1 = false ->
  in_circle end1 p0 r0 = false ->
  in_circle end1 p1 r1 = true ->
  let e1 := find_intersect end1 end0 p1 r1 in
  trim_ends end0 end1 p0 p1 r0 r1 = (end0, e1)
  /\ in_circle e1 p1 r1 = true
  /\ (Rabs (distance e1 p1 - Q2R r1) < Q2R tolerance)%R.
Proof.
  intros H1 A B C D e1.
  destruct (find_intersect_near_boundary end1 end0 p1 r1 H1 D B) as [I N].
  split; [|now split].
  unfold trim_ends. now rewrite A, B, C, D.
Qed.

Lemma trim_ends_far_end_witness :
  let end0 : point := (5, 4) in
  let end1 : point := (10, 4) in
  let p0 : point := (0, 0) in
  let p1 : point := (10, 4) in
  let e1 := find_intersect end1 end0 p1 1 in
  trim_ends end0 end1 p0 p1 1 1 = (end0, e1)
  /\ in_circle e1 p1 1 = true
  /\ (Rabs (distance e1 p1 - Q2R 1) < Q2R tolerance)%R.
Proof.
  apply (trim_ends_far_end (5, 4) (10, 4) (0, 0) (10, 4) 1 1);
    try reflexivity.
  discriminate.
Defined.

(** X9. When only the second end of the segment is inside circle 0, it is
    the first end that [trim_ends] replaces, by
    [find_intersect(end1, end0, circle0)]: the segment returned runs from
    just inside the boundary of circle 0 to the second end, and so lies
    inside circle 0. *)
Theorem trim_ends_far_end_in_circle0 (end0 end1 p0 p1 : point) (r0 r1 : Q) :
  0 <= r0 ->
  in_circle end0 p0 r0 = false ->
  in_circle end1 p0 r0 = true ->
  in_circle end0 p1 r1 && in_circle end1 p1 r1 = false ->
  let e0 := find_intersect end1 end0 p0 r0 in
  trim_ends end0 end1 p0 p1 r0 r1 = (e0, end1)
  /\ in_circle e0 p0 r0 = true
  /\ (Rabs (distance e0 p0 - Q2R r0) < Q2R tolerance)%R.
Proof.
  intros H0 A B C e0.
  destruct (find_intersect_near_boundary end1 end0 p0 r0 H0 B A) as [I N].
  split; [|now split].
  unfold trim_ends. now rewrite A, B, C.
Qed.

Lemma trim_ends_far_end_in_circle0_witness :
  let end0 : point := (5, 0) in
  let end1 : point := (1 # 2, 0) in
  let p0 : point := (0, 0) in
  let p1 : point := (10, 4) in
  let e0 := find_intersect end1 end0 p0 1 in
  trim_ends end0 end1 p0 p1 1 1 = (e0, end1)
  /\ in_circle e0 p0 1 = true
  /\ (Rabs (distance e0 p0 - Q2R 1) < Q2R tolerance)%R.
Proof.
  apply (trim_ends_far_end_in_circle0 (5, 0) (1 # 2, 0) (0, 0) (10, 4) 1 1);
    try reflexivity.
  discriminate.
Defined.

(** * The loops of [draw] *)

Lemma with_derived_same (st : Line) :
  with_derived st (m_arcpoints st) (m_arcindex st) (m_points st) (m_index st)
  = st.
Proof. now destruct st. Qed.

Lemma arc_points_read (arcpoints : list entry) (a : arc_index) (q : arc)
    (st : Line) :
  read_arc arcpoints a = Some q ->
  arc_points arcpoints a st = (Ok q, st, []).
Proof.
  destruct a as [[[i0 i1] i2] i3].
  unfold read_arc, entry_point, arc_points, arcpoint, bind, ret, raise.
  destruct (nth_error arcpoints i0) as [[p0|]|]; try discriminate.
  destruct (nth_error arcpoints i1) as [[p1|]|]; try discriminate.
  destruct (nth_error arcpoints i2) as [[p2|]|]; try discriminate.
  destruct (nth_error arcpoints i3) as [[p3|]|]; try discriminate.
  now intros [= <-].
Qed.

Lemma arc_points_raise (arcpoints : list entry) (a : arc_index) (st : Line) :
  read_arc arcpoints a = None ->
  arc_points arcpoints a st = (Raise IndexError, st, []).
Proof.
  destruct a as [[[i0 i1] i2] i3].
  unfold read_arc, entry_point, arc_points, arcpoint, bind, ret, raise.
  destruct (nth_error arcpoints i0) as [[p0|]|]; try reflexivity.
  destruct (nth_error arcpoints i1) as [[p1|]|]; try reflexivity.
  destruct (nth_error arcpoints i2) as [[p2|]|]; try reflexivity.
  destruct (nth_error arcpoints i3) as [[p3|]|]; try reflexivity.
  discriminate.
Qed.

Section Loops.

Variable cubic_spline :
  point -> point -> point -> point -> Z -> list point * list nat.

(** The loop of the laser branch. *)
Lemma osc_loop (arcpoints : list entry) (st : Line) :
  forall (arcindex : list arc_index) (arcs : list arc),
    read_arcs arcpoints arcindex = Some arcs ->
    for_each arcindex (fun a =>
      bind (arc_points arcpoints a) (fun q =>
        let '(p0, p1, p2, p3) := q in
        emit (send_laser "/laser/bezier/cubic"
                [px p0; py p0; px p1; py p1; px p2; py p2; px p3; py p3])))
      st
    = (Ok tt, st, map cubic_message arcs).
Proof.
  induction arcindex as [|a idx IH]; intros arcs H; cbn [read_arcs] in H.
  - injection H as <-. reflexivity.
  - destruct (read_arc arcpoints a) as [q|] eqn:Eq; [|discriminate].
    destruct (read_arcs arcpoints idx) as [qs|]; [|discriminate].
    injection H as <-.
    cbn [for_each]. unfold bind at 1. unfold bind at 1.
    rewrite (arc_points_read _ _ _ _ Eq).
    destruct q as [[[p0 p1] p2] p3]. unfold emit at 1.
    rewrite (IH qs eq_refl). reflexivity.
Qed.

Lemma draw_osc_read (arcpoints : list entry) (arcindex : list arc_index)
    (arcs : list arc) (c : color) (st : Line) :
  read_arcs arcpoints arcindex = Some arcs ->
  draw_osc arcpoints arcindex c st = (Ok tt, st, laser_messages c arcs).
Proof.
  intro H. destruct c as [[c0 c1] c2].
  unfold draw_osc, laser_messages. unfold bind at 1. unfold emit at 1.
  change (for_each arcindex _ st) with
    (for_each arcindex (fun a =>
      bind (arc_points arcpoints a) (fun q =>
        let '(p0, p1, p2, p3) := q in
        emit (send_laser "/laser/bezier/cubic"
                [px p0; py p0; px p1; py p1; px p2; py p2; px p3; py p3])))
      st).
  rewrite (osc_loop _ _ _ _ H). reflexivity.
Qed.

(** The first loop of the screen branch: one list of segments is added
    for each arc, nothing is sent. *)
Lemma screen_loop_segments (arcpoints : list entry) :
  forall (arcindex : list arc_index) (arcs : list arc) (st : Line),
    read_arcs arcpoints arcindex = Some arcs ->
    for_each arcindex (fun a =>
      bind (arc_points arcpoints a) (fun q =>
        let '(p0, p1, p2, p3) := q in
        let '(points, index) :=
          if (Qeq_bool (px p0) (px p1) && Qeq_bool (px p1) (px p2)
                && Qeq_bool (px p2) (px p3))
             || (Qeq_bool (py p0) (py p1) && Qeq_bool (py p1) (py p2)
                   && Qeq_bool (py p2) (py p3))
          then ([p0; p1; p2; p3], [0; 1; 1; 2; 2; 3]%nat)
          else cubic_spline p0 p1 p2 p3 CURVE_SEGS in
        append_segments points index))
      st
    = (Ok tt, drawn cubic_spline st arcs, []).
Proof.
  induction arcindex as [|a idx IH]; intros arcs st H; cbn [read_arcs] in H.
  - injection H as <-. unfold drawn. cbn [map for_each].
    now rewrite !app_nil_r, with_derived_same.
  - destruct (read_arc arcpoints a) as [q|] eqn:Eq; [|discriminate].
    destruct (read_arcs arcpoints idx) as [qs|] eqn:Eqs; [|discriminate].
    injection H as <-.
    cbn [for_each]. unfold bind at 1. unfold bind at 1.
    rewrite (arc_points_read _ _ _ _ Eq).
    destruct q as [[[p0 p1] p2] p3].
    fold (straight (p0, p1, p2, p3)).
    change (if straight (p0, p1, p2, p3)
            then ([p0; p1; p2; p3], [0; 1; 1; 2; 2; 3]%nat)
            else cubic_spline p0 p1 p2 p3 CURVE_SEGS)
      with (segments cubic_spline (p0, p1, p2, p3)).
    remember (segments cubic_spline (p0, p1, p2, p3)) as sg eqn:Es.
    destruct sg as [points index]. symmetry in Es.
    unfold append_segments at 1, bind at 1, get, put.
    rewrite (IH qs _ eq_refl).
    unfold drawn, with_derived.
    cbn [map m_points m_index m_arcpoints m_arcindex m_field m_p0 m_p1
         m_r0 m_r1 m_color m_path].
    rewrite Es. cbn [fst snd app]. now rewrite <- !app_assoc.
Qed.

(** The second loop of the screen branch: two calls for each list of
    segments of the line. *)
Lemma screen_loop_calls (field : Field) (c : color) (st : Line) :
  forall (l2 : list (list nat)) (l1 : list (list point))
         (pre1 : list (list point)) (pre2 : list (list nat)),
    length pre1 = length pre2 -> length l1 = length l2 ->
    for_each (seq (length pre2) (length l2)) (fun i =>
      match nth_error (pre1 ++ l1) i, nth_error (pre2 ++ l2) i with
      | Some points, Some index =>
          let scaled_pts := rescale_pt2screen field points in
          let '(c0, c1, c2) := c in
          bind (emit (glColor3f c0 c1 c2)) (fun _ =>
            emit (draw_indexed (length scaled_pts) index (chain scaled_pts)))
      | _, _ => raise IndexError
      end) st
    = (Ok tt, st, flat_map (screen_calls field c) (combine l1 l2)).
Proof.
  destruct c as [[c0 c1] c2].
  induction l2 as [|index l2 IH]; intros l1 pre1 pre2 Hpre Hl.
  - destruct l1; [reflexivity | discriminate].
  - destruct l1 as [|points l1]; [discriminate|].
    injection Hl as Hl.
    assert (E1 : nth_error (pre1 ++ points :: l1) (length pre2) = Some points).
    { rewrite <- Hpre, nth_error_app2, Nat.sub_diag by lia. reflexivity. }
    assert (E2 : nth_error (pre2 ++ index :: l2) (length pre2) = Some index).
    { rewrite nth_error_app2, Nat.sub_diag by lia. reflexivity. }
    cbn [length seq for_each]. unfold bind at 1. cbv beta.
    rewrite E1, E2. unfold bind at 1, emit at 1 2.
    specialize (IH l1 (pre1 ++ [points]) (pre2 ++ [index])).
    rewrite !length_app in IH. cbn [length] in IH.
    rewrite <- !app_assoc in IH. cbn [app] in IH.
    replace (length pre2 + 1)%nat with (S (length pre2)) in IH by lia.
    rewrite IH by lia.
    reflexivity.
Qed.

Lemma draw_screen_read (field : Field) (arcpoints : list entry)
    (arcindex : list arc_index) (arcs : list arc) (c : color) (st : Line) :
  read_arcs arcpoints arcindex = Some arcs ->
  length (m_points st) = length (m_index st) ->
  let st' := drawn cubic_spline st arcs in
  draw_screen cubic_spline field arcpoints arcindex c st
  = (Ok tt, st',
     flat_map (screen_calls field c) (combine (m_points st') (m_index st'))).
Proof.
  intros H L st'. unfold draw_screen. unfold bind at 1.
  rewrite (screen_loop_segments _ _ _ _ H). fold st'.
  unfold bind at 1, get.
  pose proof (screen_loop_calls field c st' (m_index st') (m_points st')
                [] []) as Loop.
  cbn [app length] in Loop.
  rewrite Loop; [reflexivity | reflexivity |].
  subst st'. unfold drawn, with_derived. cbn.
  rewrite !length_app, !length_map. now rewrite L.
Qed.

End Loops.

(** * The chain of pathfinding *)

Section PathLoop.

Variables (p0 p1 : point) (r0 r1 : Q).

Lemma path_loop_step (thispt nextpt : point) (rest : list point)
    (npath : list entry) (lastpt : entry) :
  path_loop p0 p1 r0 r1 (thispt :: nextpt :: rest) npath lastpt
  = if skipped p0 p1 r0 r1 thispt nextpt
    then path_loop p0 p1 r0 r1 (nextpt :: rest) npath lastpt
    else let '(a0, a1, a2, a3) := pair_arc p0 p1 r0 r1 thispt nextpt in
         path_loop p0 p1 r0 r1 (nextpt :: rest)
                   (npath ++ [Pt a0; Pt a1; Pt a2]) (Pt a3).
Proof.
  unfold skipped, pair_arc.
  change (path_loop p0 p1 r0 r1 (thispt :: nextpt :: rest) npath lastpt)
    with
    (if (in_circle thispt p0 r0 && in_circle nextpt p0 r0)
        || (in_circle thispt p1 r1 && in_circle nextpt p1 r1)
     then path_loop p0 p1 r0 r1 (nextpt :: rest) npath lastpt
     else
       let '(thispt, nextpt') :=
         if in_circle thispt p0 r0
         then (find_intersect thispt nextpt p0 r0, nextpt)
         else if in_circle nextpt p1 r1
         then (thispt, find_intersect nextpt thispt p1 r1)
         else (thispt, nextpt) in
       let '(a0, a1, a2, a3) := make_arc thispt nextpt' in
       path_loop p0 p1 r0 r1 (nextpt :: rest)
                 (npath ++ [Pt a0; Pt a1; Pt a2]) (Pt a3)).
  destruct (in_circle thispt p0 r0), (in_circle nextpt p1 r1); reflexivity.
Qed.

Lemma path_arcs_step (thispt nextpt : point) (rest : list point) :
  path_arcs p0 p1 r0 r1 (thispt :: nextpt :: rest)
  = if skipped p0 p1 r0 r1 thispt nextpt
    then path_arcs p0 p1 r0 r1 (nextpt :: rest)
    else pair_arc p0 p1 r0 r1 thispt nextpt
         :: path_arcs p0 p1 r0 r1 (nextpt :: rest).
Proof. reflexivity. Qed.

(** The loop stores the first three points of the arc of each pair that
    it does not skip, and keeps the end of the last one. *)
Lemma path_loop_arcs (path : list point) :
  forall (npath : list entry) (lastpt : entry),
    path_loop p0 p1 r0 r1 path npath lastpt
    = (npath ++ flat_map first3 (path_arcs p0 p1 r0 r1 path),
       last_end (path_arcs p0 p1 r0 r1 path) lastpt).
Proof.
  induction path as [|thispt rest IH]; intros npath lastpt.
  - cbn. now rewrite app_nil_r.
  - destruct rest as [|nextpt rest'].
    + cbn. now rewrite app_nil_r.
    + rewrite path_loop_step, path_arcs_step.
      destruct (skipped p0 p1 r0 r1 thispt nextpt); [apply IH|].
      destruct (pair_arc p0 p1 r0 r1 thispt nextpt) as [[[a0 a1] a2] a3].
      rewrite IH. cbn [flat_map first3 last_end app].
      now rewrite <- app_assoc.
Qed.

Lemma path_arcs_length (path : list point) :
  (length (path_arcs p0 p1 r0 r1 path) <= length path - 1)%nat.
Proof.
  induction path as [|a rest IH]; [cbn; lia|].
  destruct rest as [|b rest']; [cbn; lia|].
  rewrite path_arcs_step.
  destruct (skipped p0 p1 r0 r1 a b); cbn [length] in *; lia.
Qed.

(** Outside the two circles no pair is skipped and no point is moved. *)
Lemma path_arcs_outside (path : list point) :
  Forall (outside_both p0 p1 r0 r1) path ->
  path_arcs p0 p1 r0 r1 path = pair_arcs path.
Proof.
  induction path as [|a rest IH]; intro H; [reflexivity|].
  destruct rest as [|b rest']; [reflexivity|].
  inversion H as [|? ? [Ha0 Ha1] H']; subst.
  inversion H' as [|? ? [Hb0 Hb1] _]; subst.
  rewrite path_arcs_step, (IH H'). unfold skipped, pair_arc.
  rewrite Ha0, Ha1, Hb1. reflexivity.
Qed.

End PathLoop.

Lemma joined_step (a0 a1 a2 a3 b0 b1 b2 b3 : point) (l : list arc) :
  joined ((a0, a1, a2, a3) :: (b0, b1, b2, b3) :: l)
  = (a0, a1, a2, b0) :: joined ((b0, b1, b2, b3) :: l).
Proof. reflexivity. Qed.

Lemma pair_arcs_head (b : point) (rest : list point) :
  match pair_arcs (b :: rest) with
  | [] => True
  | (b0, _, _, _) :: _ => b0 = b
  end.
Proof. destruct rest; reflexivity || exact I. Qed.

Lemma joined_pair_arcs (path : list point) :
  joined (pair_arcs path) = pair_arcs path.
Proof.
  induction path as [|a rest IH]; [reflexivity|].
  destruct rest as [|b rest']; [reflexivity|].
  change (pair_arcs (a :: b :: rest'))
    with (make_arc a b :: pair_arcs (b :: rest')).
  pose proof (pair_arcs_head b rest') as Hd. revert IH Hd.
  destruct (pair_arcs (b :: rest')) as [|[[[b0 b1] b2] b3] l];
    [reflexivity|].
  intros IH Hd. subst b0. unfold make_arc.
  rewrite joined_step. f_equal. exact IH.
Qed.

Lemma pair_arcs_length (path : list point) :
  length (pair_arcs path) = (length path - 1)%nat.
Proof.
  induction path as [|a rest IH]; [reflexivity|].
  destruct rest as [|b rest']; [reflexivity|].
  cbn [pair_arcs length] in *. lia.
Qed.

Lemma first3_length (arcs : list arc) :
  length (flat_map first3 arcs) = (3 * length arcs)%nat.
Proof.
  induction arcs as [|[[[a0 a1] a2] a3] rest IH]; [reflexivity|].
  cbn [flat_map first3 length app]. lia.
Qed.

(** The index that pathfinding computes for a buffer of [3 * k + 1]
    entries. *)
Lemma pathfinding_index (k : nat) :
  map (fun x => (x - 3, x - 2, x - 1, x)%nat) (range 3 (3 * k + 1) 3)
  = map window (seq 0 k).
Proof.
  unfold range.
  assert (E : ((3 * k + 1 - 3 + (3 - 1)) / 3 = k)%nat).
  { destruct k as [|k]; [reflexivity|].
    replace (3 * S k + 1 - 3 + (3 - 1))%nat with (S k * 3)%nat by lia.
    apply Nat.div_mul. lia. }
  rewrite E, map_map. apply map_ext. intro i. unfold window.
  f_equal; [f_equal; [f_equal|]|]; lia.
Qed.

Lemma read_arcs_shift (e0 e1 e2 : entry) (buf : list entry) (k : nat) :
  forall s : nat,
    read_arcs (e0 :: e1 :: e2 :: buf) (map window (seq (S s) k))
    = read_arcs buf (map window (seq s k)).
Proof.
  induction k as [|k IH]; intro s; [reflexivity|].
  cbn [seq map read_arcs]. rewrite IH.
  assert (E : read_arc (e0 :: e1 :: e2 :: buf) (window (S s))
              = read_arc buf (window s)).
  { unfold window, read_arc, entry_point.
    replace (S s * 3)%nat with (S (S (S (s * 3)))) by lia.
    cbn [Nat.add nth_error]. reflexivity. }
  now rewrite E.
Qed.

(** Read through its index, the buffer of pathfinding gives the arcs
    joined into a chain. *)
Lemma read_arcs_buffer (arcs : list arc) :
  forall lastpt : entry,
    read_arcs (flat_map first3 arcs ++ [last_end arcs lastpt])
              (map window (seq 0 (length arcs)))
    = Some (joined arcs).
Proof.
  induction arcs as [|[[[a0 a1] a2] a3] rest IH]; intro lastpt;
    [reflexivity|].
  cbn [flat_map first3 last_end length seq map app read_arcs].
  rewrite read_arcs_shift, IH.
  destruct rest as [|[[[b0 b1] b2] b3] rest']; reflexivity.
Qed.

(** * The chains of [render] *)

Lemma render_arcs_pathfinding (p0 p1 : point) (r0 r1 : Q) (path : list point) :
  let arcs := path_arcs p0 p1 r0 r1 path in
  render_arcs "pathfinding" p0 p1 r0 r1 path
  = (Some (flat_map first3 arcs ++ [last_end arcs NoPt]),
     Some (map window (seq 0 (length arcs)))).
Proof.
  intro arcs. unfold render_arcs. cbn [String.eqb Ascii.eqb Bool.eqb].
  rewrite path_loop_arcs. fold arcs. cbn [app].
  rewrite length_app, first3_length. cbn [length].
  now rewrite pathfinding_index.
Qed.

(** In every mode the index that [render] stores, if any, describes arcs
    of the buffer that it stores. *)
Lemma render_arcs_sound (LINEMODE : string) (p0 p1 : point) (r0 r1 : Q)
    (path : list point) :
  match render_arcs LINEMODE p0 p1 r0 r1 path with
  | (Some arcpoints, Some arcindex) => read_arcs arcpoints arcindex <> None
  | _ => True
  end.
Proof.
  unfold render_arcs.
  destruct p0 as [x0 y0], p1 as [x1 y1].
  destruct (String.eqb LINEMODE "direct"); [discriminate|].
  destruct (String.eqb LINEMODE "curves").
  { destruct (Qeq_bool (Qabs (x0 - x1)) 0 || Qeq_bool (Qabs (y0 - y1)) 0);
      [|destruct (Qltb (Qabs (y0 - y1)) (Qabs (x0 - x1)))];
      repeat match goal with
             | |- context [trim_ends ?a ?b ?c ?d ?r ?s] =>
                 destruct (trim_ends a b c d r s)
             end; discriminate. }
  destruct (String.eqb LINEMODE "simple").
  { destruct (Qeq_bool (Qabs (x0 - x1)) 0 || Qeq_bool (Qabs (y0 - y1)) 0);
      [|destruct (Qltb (Qabs (y0 - y1)) (Qabs (x0 - x1)))]; discriminate. }
  destruct (String.eqb LINEMODE "improved_simple"); [exact I|].
  destruct (String.eqb LINEMODE "pathfinding"); [|exact I].
  rewrite path_loop_arcs. cbn [app].
  rewrite length_app, first3_length. cbn [length].
  rewrite pathfinding_index, read_arcs_buffer. discriminate.
Qed.

(** * The draw cycle *)

Lemma with_derived_inputs (st st' : Line) a i p x :
  same_inputs st st' -> with_derived st a i p x = with_derived st' a i p x.
Proof.
  intros (F & P0 & P1 & R0 & R1 & C & P). unfold with_derived.
  now rewrite F, P0, P1, R0, R1, C, P.
Qed.

Lemma same_inputs_with_derived (st : Line) a i p x :
  same_inputs st (with_derived st a i p x).
Proof. repeat split. Qed.

Lemma same_inputs_trans (a b c : Line) :
  same_inputs a b -> same_inputs b c -> same_inputs a c.
Proof.
  intros (F & P0 & P1 & R0 & R1 & C & P) (F' & P0' & P1' & R0' & R1' & C' & P').
  repeat split; congruence.
Qed.

Section Cycle.

Variable LINEMODE : string.
Variable GRAPHMODES : Z.
Variable cubic_spline :
  point -> point -> point -> point -> Z -> list point * list nat.

(** The second statement of [draw] when its guard holds. *)
Lemma draw_output_open (st : Line) (field : Field) (arcpoints : list entry)
    (arcindex : list arc_index) (c : color) (arcs : list arc) :
  m_field st = Some field ->
  m_arcpoints st = Some arcpoints -> m_arcindex st = Some arcindex ->
  arcpoints <> [] -> arcindex <> [] ->
  m_color st = Some c ->
  read_arcs arcpoints arcindex = Some arcs ->
  length (m_points st) = length (m_index st) ->
  let st' := drawn cubic_spline st arcs in
  draw_output GRAPHMODES cubic_spline st
  = (Ok tt,
     (if graph_opt GRAPHMODES 1 then st' else st),
     (if graph_opt GRAPHMODES 1
      then flat_map (screen_calls field c) (combine (m_points st') (m_index st'))
      else [])
     ++ (if graph_opt GRAPHMODES 2 then laser_messages c arcs else [])).
Proof.
  intros F A I NA NI C R L st'.
  unfold draw_output. unfold bind at 1. unfold get.
  rewrite F, A, I, C.
  destruct arcpoints as [|e arcpoints']; [contradiction|].
  destruct arcindex as [|a arcindex']; [contradiction|].
  unfold bind.
  destruct (graph_opt GRAPHMODES 1).
  - rewrite (draw_screen_read cubic_spline field _ _ arcs c st R L).
    fold st'.
    destruct (graph_opt GRAPHMODES 2).
    + rewrite (draw_osc_read _ _ arcs c st' R). now rewrite app_nil_l.
    + unfold ret. now rewrite app_nil_l.
  - unfold ret at 1.
    destruct (graph_opt GRAPHMODES 2).
    + rewrite (draw_osc_read _ _ arcs c st R). reflexivity.
    + reflexivity.
Qed.

Lemma sound_drawn (st : Line) (arcs : list arc) :
  sound st -> sound (drawn cubic_spline st arcs).
Proof.
  intros [S L]. split; [exact S|].
  unfold drawn, with_derived. cbn.
  rewrite !length_app, !length_map. now rewrite L.
Qed.

(** On a consistent line the second statement of [draw] returns; it
    leaves a consistent line with the same inputs. *)
Lemma draw_output_sound (st : Line) :
  sound st ->
  exists st' evs,
    draw_output GRAPHMODES cubic_spline st = (Ok tt, st', evs)
    /\ sound st' /\ same_inputs st st'.
Proof.
  intro S.
  assert (Same : same_inputs st st) by (repeat split).
  destruct (m_field st) as [field|] eqn:F;
    [|exists st, []; split; [|now split];
      apply draw_output_closed; now left].
  destruct (m_color st) as [c|] eqn:C;
    [|exists st, []; split; [|now split];
      apply draw_output_closed; right; now left].
  destruct (m_arcpoints st) as [[|e arcpoints]|] eqn:A;
    [exists st, []; split; [|now split];
     apply draw_output_closed; right; right; left; right; exact A
    | |exists st, []; split; [|now split];
       apply draw_output_closed; right; right; left; left; exact A].
  destruct (m_arcindex st) as [[|a arcindex]|] eqn:I;
    [exists st, []; split; [|now split];
     apply draw_output_closed; right; right; right; right; exact I
    | |exists st, []; split; [|now split];
       apply draw_output_closed; right; right; right; left; exact I].
  destruct S as [S L]. rewrite A, I in S.
  destruct (read_arcs (e :: arcpoints) (a :: arcindex)) as [arcs|] eqn:R;
    [|contradiction].
  eexists. eexists. split.
  - apply (draw_output_open st field (e :: arcpoints) (a :: arcindex) c arcs);
      auto; discriminate.
  - assert (S' : sound st) by (split; [now rewrite A, I, R | exact L]).
    destruct (graph_opt GRAPHMODES 1).
    + split; [now apply sound_drawn | apply same_inputs_with_derived].
    + now split.
Qed.

(** The first statement of [draw] leaves a consistent line with the same
    inputs. *)
Lemma draw_render_sound (st : Line) :
  sound st ->
  sound (state_after (draw_render LINEMODE st))
  /\ same_inputs st (state_after (draw_render LINEMODE st)).
Proof.
  intro S. unfold draw_render, bind, get, state_after. cbn.
  destruct (m_p0 st) as [p0|]; [destruct (m_p1 st) as [p1|]|];
    try (split; [exact S | repeat split]).
  rewrite render_outcome. cbn [fst snd].
  split; [|apply same_inputs_with_derived].
  split; [|reflexivity].
  pose proof (render_arcs_sound LINEMODE p0 p1 (m_r0 st) (m_r1 st)
                (m_path st)) as R.
  destruct (render_arcs LINEMODE p0 p1 (m_r0 st) (m_r1 st) (m_path st))
    as [[pts|] [idx|]]; cbn; auto.
Qed.

End Cycle.

Lemma filter_laser_screen (field : Field) (c : color)
    (l : list (list point * list nat)) :
  filter is_laser (flat_map (screen_calls field c) l) = [].
Proof.
  destruct c as [[c0 c1] c2].
  induction l as [|x l IH]; [reflexivity|]. cbn. exact IH.
Qed.

Lemma filter_laser_messages (c : color) (arcs : list arc) :
  filter is_laser (laser_messages c arcs) = laser_messages c arcs.
Proof.
  destruct c as [[c0 c1] c2]. unfold laser_messages. cbn [filter is_laser].
  f_equal. induction arcs as [|[[[p0 p1] p2] p3] arcs IH]; [reflexivity|].
  cbn. now rewrite IH.
Qed.

Lemma combine_fst_snd {A B : Type} (l : list (A * B)) :
  combine (map fst l) (map snd l) = l.
Proof.
  induction l as [|[a b] l IH]; [reflexivity|]. cbn. now rewrite IH.
Qed.

Lemma combine_app_same {A B : Type} (l1 l1' : list A) (l2 l2' : list B) :
  length l1 = length l2 ->
  combine (l1 ++ l1') (l2 ++ l2') = combine l1 l2 ++ combine l1' l2'.
Proof.
  revert l2. induction l1 as [|a l1 IH]; intros [|b l2] H;
    try discriminate; [reflexivity|].
  cbn. rewrite IH; [reflexivity|]. now injection H.
Qed.

Section DrawCycle.

Variable LINEMODE : string.
Variable GRAPHMODES : Z.
Variable cubic_spline :
  point -> point -> point -> point -> Z -> list point * list nat.

(** [draw] is its second statement run on the line that the first one
    leaves. *)
Lemma draw_two_steps (st : Line) :
  draw LINEMODE GRAPHMODES cubic_spline st
  = draw_output GRAPHMODES cubic_spline
      (state_after (draw_render LINEMODE st)).
Proof.
  pose proof (draw_render_outcome LINEMODE st) as E.
  set (st1 := state_after (draw_render LINEMODE st)) in *.
  unfold draw, bind. rewrite E.
  destruct (draw_output GRAPHMODES cubic_spline st1) as [[r s'] o].
  reflexivity.
Qed.

(** With both end points set, the first statement stores the chain of
    [render_arcs] and empties [m_points] and [m_index]. *)
Lemma draw_render_fresh (st : Line) (p0 p1 : point) :
  m_p0 st = Some p0 -> m_p1 st = Some p1 ->
  state_after (draw_render LINEMODE st)
  = with_derived st
      (fst (render_arcs LINEMODE p0 p1 (m_r0 st) (m_r1 st) (m_path st)))
      (snd (render_arcs LINEMODE p0 p1 (m_r0 st) (m_r1 st) (m_path st)))
      [] [].
Proof.
  intros H0 H1. unfold draw_render, bind, get, state_after. cbn.
  now rewrite H0, H1, render_outcome.
Qed.

Lemma draw_render_fresh_sound (st : Line) (p0 p1 : point) :
  m_p0 st = Some p0 -> m_p1 st = Some p1 ->
  sound (state_after (draw_render LINEMODE st)).
Proof.
  intros H0 H1. rewrite (draw_render_fresh st p0 p1 H0 H1).
  split; [|reflexivity].
  pose proof (render_arcs_sound LINEMODE p0 p1 (m_r0 st) (m_r1 st)
                (m_path st)) as R.
  destruct (render_arcs LINEMODE p0 p1 (m_r0 st) (m_r1 st) (m_path st))
    as [[pts|] [idx|]]; cbn; auto.
Qed.

(** X10. The lines that [__init__], [update] and [draw] produce are
    consistent (the arc index describes arcs of the point buffer, and
    [m_points] and [m_index] have the same length), and on a consistent
    line [draw] returns without an [IndexError]. *)
Theorem draw_keeps_sound :
  sound init
  /\ (forall st field p0 p1 r0 r1 c path,
        sound st -> sound (update st field p0 p1 r0 r1 c path))
  /\ (forall st,
        sound st ->
        let o := draw LINEMODE GRAPHMODES cubic_spline st in
        returned o = Ok tt /\ sound (state_after o)).
Proof.
  split; [split; [exact I | reflexivity]|].
  split; [intros st field p0 p1 r0 r1 c path S; exact S|].
  intros st S o. subst o. rewrite draw_two_steps.
  destruct (draw_render_sound LINEMODE st S) as [S1 _].
  destruct (draw_output_sound GRAPHMODES cubic_spline _ S1)
    as (st' & evs & E & S' & _).
  rewrite E. now split.
Qed.

(** X11. With both end points set [draw] returns without an
    [IndexError], in every mode and whatever the derived attributes held
    before: [render] stores a chain whose index fits its buffer. *)
Theorem draw_with_end_points (st : Line) (p0 p1 : point) :
  m_p0 st = Some p0 -> m_p1 st = Some p1 ->
  let o := draw LINEMODE GRAPHMODES cubic_spline st in
  returned o = Ok tt /\ sound (state_after o).
Proof.
  intros H0 H1 o. subst o. rewrite draw_two_steps.
  pose proof (draw_render_fresh_sound st p0 p1 H0 H1) as S1.
  destruct (draw_output_sound GRAPHMODES cubic_spline _ S1)
    as (st' & evs & E & S' & _).
  rewrite E. now split.
Qed.

(** X12. With both end points set a second [draw] repeats the first one:
    same result, same line, same output. *)
Theorem draw_twice (st : Line) (p0 p1 : point) :
  m_p0 st = Some p0 -> m_p1 st = Some p1 ->
  draw LINEMODE GRAPHMODES cubic_spline
    (state_after (draw LINEMODE GRAPHMODES cubic_spline st))
  = draw LINEMODE GRAPHMODES cubic_spline st.
Proof.
  intros H0 H1.
  pose proof (draw_render_fresh_sound st p0 p1 H0 H1) as S1.
  destruct (draw_output_sound GRAPHMODES cubic_spline _ S1)
    as (st' & evs & E & _ & Same').
  assert (Same : same_inputs st st').
  { eapply same_inputs_trans; [|exact Same'].
    rewrite (draw_render_fresh st p0 p1 H0 H1).
    apply same_inputs_with_derived. }
  rewrite (draw_two_steps st), E. unfold state_after. cbn [fst snd].
  rewrite draw_two_steps.
  destruct Same as (F & P0 & P1 & R0 & R1 & C & P).
  rewrite (draw_render_fresh st' p0 p1) by congruence.
  rewrite <- R0, <- R1, <- P.
  rewrite <- (with_derived_inputs st st') by (repeat split; assumption).
  rewrite <- (draw_render_fresh st p0 p1 H0 H1). exact E.
Qed.

(** X13. What a draw cycle sends when the guard of the output holds, on
    a consistent line: if the screen is enabled, the two calls for every
    list of segments that [m_points] already held after the render step,
    then the two calls for each arc of the chain; and if the laser is
    enabled, one color message followed by one cubic message per arc,
    with the coordinates of the four points of the arc as they are in
    the buffer. *)
Theorem draw_emits (st : Line) (field : Field) (c : color)
    (arcpoints : list entry) (arcindex : list arc_index) (arcs : list arc) :
  sound st ->
  let st1 := state_after (draw_render LINEMODE st) in
  m_field st = Some field -> m_color st = Some c ->
  m_arcpoints st1 = Some arcpoints -> m_arcindex st1 = Some arcindex ->
  arcpoints <> [] -> arcindex <> [] ->
  read_arcs arcpoints arcindex = Some arcs ->
  emitted (draw LINEMODE GRAPHMODES cubic_spline st)
  = (if graph_opt GRAPHMODES 1
     then flat_map (screen_calls field c)
            (combine (m_points st1) (m_index st1))
          ++ flat_map (screen_calls field c) (map (segments cubic_spline) arcs)
     else [])
    ++ (if graph_opt GRAPHMODES 2 then laser_messages c arcs else []).
Proof.
  intros S st1 F C A I NA NI R.
  destruct (draw_render_sound LINEMODE st S) as [[_ L1] _]. fold st1 in L1.
  rewrite draw_two_steps. fold st1.
  rewrite (draw_output_open GRAPHMODES cubic_spline st1 field arcpoints
             arcindex c arcs); auto.
  - unfold emitted. cbn [snd]. f_equal.
    destruct (graph_opt GRAPHMODES 1); [|reflexivity].
    unfold drawn, with_derived. cbn [m_points m_index].
    rewrite combine_app_same by exact L1.
    now rewrite flat_map_app, combine_fst_snd.
  - subst st1. now rewrite draw_render_field.
  - subst st1. now rewrite draw_render_color.
Qed.

End DrawCycle.

(** * The chains of the modes *)

(** X14. In pathfinding mode [render] stores, for the [k] pairs of way
    points that it does not skip, a buffer of [3 * k + 1] entries and the
    index [(3i, 3i+1, 3i+2, 3i+3)] for [i < k], with [k] at most the
    number of pairs.  Read through this index the buffer gives the arcs of
    these pairs joined into a chain: each arc but the last ends at the
    first point of the next arc, not at its own fourth point. *)
Theorem pathfinding_chain (st : Line) (p0 p1 : point) :
  let arcs := path_arcs p0 p1 (m_r0 st) (m_r1 st) (m_path st) in
  let o := render "pathfinding" p0 p1 st in
  exists arcpoints arcindex,
    m_arcpoints (state_after o) = Some arcpoints
    /\ m_arcindex (state_after o) = Some arcindex
    /\ length arcpoints = (3 * length arcs + 1)%nat
    /\ arcindex = map window (seq 0 (length arcs))
    /\ (length arcs <= length (m_path st) - 1)%nat
    /\ read_arcs arcpoints arcindex = Some (joined arcs).
Proof.
  intros arcs o. subst o. rewrite render_outcome, render_arcs_pathfinding.
  fold arcs. cbn [fst snd state_after with_derived m_arcpoints m_arcindex].
  eexists. eexists. split; [reflexivity|]. split; [reflexivity|].
  split; [|split; [reflexivity|split]].
  - rewrite length_app, first3_length. reflexivity.
  - apply path_arcs_length.
  - apply read_arcs_buffer.
Qed.

(** X15. In pathfinding mode, when every way point is outside both
    circles, the chain that [render] stores is the chain of
    [make_arc(path[i], path[i+1])] for the consecutive pairs of the path,
    one arc per pair. *)
Theorem pathfinding_outside (st : Line) (p0 p1 : point) :
  Forall (outside_both p0 p1 (m_r0 st) (m_r1 st)) (m_path st) ->
  let o := render "pathfinding" p0 p1 st in
  exists arcpoints arcindex,
    m_arcpoints (state_after o) = Some arcpoints
    /\ m_arcindex (state_after o) = Some arcindex
    /\ length arcindex = (length (m_path st) - 1)%nat
    /\ read_arcs arcpoints arcindex = Some (pair_arcs (m_path st)).
Proof.
  intros H o. subst o. rewrite render_outcome, render_arcs_pathfinding.
  rewrite (path_arcs_outside _ _ _ _ _ H).
  cbn [fst snd state_after with_derived m_arcpoints m_arcindex].
  eexists. eexists. split; [reflexivity|]. split; [reflexivity|].
  split.
  - now rewrite length_map, length_seq, pair_arcs_length.
  - now rewrite read_arcs_buffer, joined_pair_arcs.
Qed.

Lemma pathfinding_outside_witness :
  let p0 : point := (0, 0) in
  let p1 : point := (10, 0) in
  let st := update init None (Some p0) (Some p1) 1 1 None
              (Some [(2, 0); (5, 3); (8, 0)]) in
  let o := render "pathfinding" p0 p1 st in
  exists arcpoints arcindex,
    m_arcpoints (state_after o) = Some arcpoints
    /\ m_arcindex (state_after o) = Some arcindex
    /\ length arcindex = 2%nat
    /\ read_arcs arcpoints arcindex
       = Some [make_arc (2, 0) (5, 3); make_arc (5, 3) (8, 0)].
Proof.
  intros p0 p1 st.
  apply (pathfinding_outside st p0 p1).
  repeat constructor.
Defined.

(** * Straight arcs *)

Ltac same_coordinate :=
  rewrite !Bool.andb_true_iff; repeat split; apply Qeq_bool_iff;
  unfold make_arc, fracpoint, midpoint, frac_333, frac_666, px, py;
  cbn [fst snd].
Ltac same_x := unfold straight; apply Bool.orb_true_iff; left; same_coordinate.
Ltac same_y := unfold straight; apply Bool.orb_true_iff; right; same_coordinate.

(** The arcs of simple mode are parallel to an axis. *)
Lemma simple_arcs_straight (p0 p1 : point) (r0 r1 : Q) (path : list point) :
  exists arcpoints arcindex arcs,
    render_arcs "simple" p0 p1 r0 r1 path = (Some arcpoints, Some arcindex)
    /\ read_arcs arcpoints arcindex = Some arcs
    /\ Forall (fun q => straight q = true) arcs.
Proof.
  destruct p0 as [x0 y0], p1 as [x1 y1].
  unfold render_arcs. cbn [String.eqb Ascii.eqb Bool.eqb].
  destruct (Qeq_bool (Qabs (x0 - x1)) 0 || Qeq_bool (Qabs (y0 - y1)) 0) eqn:Z;
    [|destruct (Qltb (Qabs (y0 - y1)) (Qabs (x0 - x1)))].
  - do 3 eexists. split; [reflexivity|]. split; [reflexivity|].
    constructor; [|constructor].
    apply Bool.orb_true_iff in Z as [Z | Z]; apply Qabs_diff_zero in Z.
    + same_x; rewrite Z; field.
    + same_y; rewrite Z; field.
  - do 3 eexists. split; [reflexivity|]. split; [reflexivity|].
    repeat constructor.
    + same_y; ring.
    + same_x; ring.
    + same_y; ring.
  - do 3 eexists. split; [reflexivity|]. split; [reflexivity|].
    repeat constructor.
    + same_x; ring.
    + same_y; ring.
    + same_x; ring.
Qed.

Lemma segments_straight cs1 cs2 (arcs : list arc) :
  Forall (fun q => straight q = true) arcs ->
  map (segments cs1) arcs = map (segments cs2) arcs.
Proof.
  induction 1 as [|[[[a0 a1] a2] a3] l H _ IH]; [reflexivity|].
  cbn [map]. rewrite IH. unfold segments. now rewrite H.
Qed.

Section Straight.

Variable GRAPHMODES : Z.
Variables cs1 cs2 :
  point -> point -> point -> point -> Z -> list point * list nat.

(** On a chain of straight arcs the output does not depend on
    [cubic_spline]. *)
Lemma draw_output_straight (st : Line) :
  length (m_points st) = length (m_index st) ->
  (forall arcpoints arcindex,
     m_arcpoints st = Some arcpoints -> m_arcindex st = Some arcindex ->
     exists arcs, read_arcs arcpoints arcindex = Some arcs
                  /\ Forall (fun q => straight q = true) arcs) ->
  draw_output GRAPHMODES cs1 st = draw_output GRAPHMODES cs2 st.
Proof.
  intros L H.
  destruct (m_field st) as [field|] eqn:F;
    [|rewrite !draw_output_closed; auto].
  destruct (m_color st) as [c|] eqn:C;
    [|rewrite !draw_output_closed; auto].
  destruct (m_arcpoints st) as [[|e arcpoints]|] eqn:A;
    [rewrite !draw_output_closed; auto; right; right; left; right; exact A
    | |rewrite !draw_output_closed; auto; right; right; left; left; exact A].
  destruct (m_arcindex st) as [[|a arcindex]|] eqn:I;
    [rewrite !draw_output_closed; auto; right; right; right; right; exact I
    | |rewrite !draw_output_closed; auto; right; right; right; left; exact I].
  destruct (H _ _ eq_refl eq_refl) as (arcs & R & S).
  rewrite (draw_output_open GRAPHMODES cs1 st field (e :: arcpoints)
             (a :: arcindex) c arcs); auto; try discriminate.
  rewrite (draw_output_open GRAPHMODES cs2 st field (e :: arcpoints)
             (a :: arcindex) c arcs); auto; try discriminate.
  unfold drawn. now rewrite (segments_straight cs1 cs2 arcs S).
Qed.

(** X16. In simple mode the screen branch never calls [cubic_spline]:
    every arc of the chain is parallel to an axis and is drawn as three
    line segments, so a draw cycle with both end points set gives the same
    result, line and output with any two curve evaluators. *)
Theorem draw_simple_no_spline (st : Line) (p0 p1 : point) :
  m_p0 st = Some p0 -> m_p1 st = Some p1 ->
  draw "simple" GRAPHMODES cs1 st = draw "simple" GRAPHMODES cs2 st.
Proof.
  intros H0 H1. rewrite !draw_two_steps.
  rewrite (draw_render_fresh "simple" st p0 p1 H0 H1).
  destruct (simple_arcs_straight p0 p1 (m_r0 st) (m_r1 st) (m_path st))
    as (pts & idx & arcs & E & R & S).
  rewrite E. cbn [fst snd].
  apply draw_output_straight; [reflexivity|].
  cbn [with_derived m_arcpoints m_arcindex].
  intros pts' idx' [= <-] [= <-]. now exists arcs.
Qed.

End Straight.

Lemma draw_simple_no_spline_witness :
  let st := update init (Some floor_field) (Some (0, 0)) (Some (10, 4)) 1 1
              (Some white) None in
  draw "simple" graphic_modes chord_spline st
  = draw "simple" graphic_modes (fun _ _ _ _ _ => ([], [])) st.
Proof.
  intro st.
  apply (draw_simple_no_spline graphic_modes chord_spline
           (fun _ _ _ _ _ => ([], [])) st (0, 0) (10, 4));
    reflexivity.
Defined.

(** X17. In curves mode [render] stores one arc of four points.  With
    [c1] and [c2] the control points of the elbow (both the middle of the
    end points when a delta is zero; [(xmid, y0)] and [(xmid, y1)] when
    the x-delta is the larger one; otherwise twice [(x0, ymid)]), the
    first two points of the arc lie on the segment from [p0] to [c1] and
    the last two on the segment from [c2] to [p1]: trimming moves the
    points along the two legs only. *)
Theorem render_curves_elbow (st : Line) (p0 p1 : point) :
  let '(c1, c2) := curve_controls p0 p1 in
  let o := render "curves" p0 p1 st in
  exists a0 a1 a2 a3,
    m_arcpoints (state_after o) = Some [Pt a0; Pt a1; Pt a2; Pt a3]
    /\ m_arcindex (state_after o) = Some [(0, 1, 2, 3)%nat]
    /\ on_segment p0 c1 a0 /\ on_segment p0 c1 a1
    /\ on_segment c2 p1 a2 /\ on_segment c2 p1 a3.
Proof.
  destruct p0 as [x0 y0], p1 as [x1 y1].
  unfold curve_controls.
  assert (G : forall c1 c2 : point,
            let '(a0, a1) := trim_ends (x0, y0) c1 (x0, y0) (x1, y1)
                               (m_r0 st) (m_r1 st) in
            let '(a2, a3) := trim_ends c2 (x1, y1) (x0, y0) (x1, y1)
                               (m_r0 st) (m_r1 st) in
            on_segment (x0, y0) c1 a0 /\ on_segment (x0, y0) c1 a1
            /\ on_segment c2 (x1, y1) a2 /\ on_segment c2 (x1, y1) a3).
  { intros c1 c2.
    pose proof (trim_ends_stays (x0, y0) c1 (x0, y0) (x1, y1)
                  (m_r0 st) (m_r1 st)) as [A B].
    pose proof (trim_ends_stays c2 (x1, y1) (x0, y0) (x1, y1)
                  (m_r0 st) (m_r1 st)) as [C D].
    destruct (trim_ends (x0, y0) c1 _ _ _ _),
             (trim_ends c2 (x1, y1) _ _ _ _).
    now repeat split. }
  rewrite render_outcome. unfold render_arcs.
  cbn [String.eqb Ascii.eqb Bool.eqb state_after fst snd].
  destruct (Qeq_bool (Qabs (x0 - x1)) 0 || Qeq_bool (Qabs (y0 - y1)) 0);
    [|destruct (Qltb (Qabs (y0 - y1)) (Qabs (x0 - x1)))];
    match goal with
    | |- context [trim_ends (x0, y0) ?c1 _ _ _ _] =>
        match goal with
        | |- context [trim_ends ?c2 (x1, y1) _ _ _ _] =>
            specialize (G c1 c2);
            destruct (trim_ends (x0, y0) c1 (x0, y0) (x1, y1)
                        (m_r0 st) (m_r1 st)) as [a0 a1],
                     (trim_ends c2 (x1, y1) (x0, y0) (x1, y1)
                        (m_r0 st) (m_r1 st)) as [a2 a3]
        end
    end;
    exists a0, a1, a2, a3; (split; [reflexivity|]); (split; [reflexivity|]);
    exact G.
Qed.

(** * Concrete draw cycles, continued *)

Lemma draw_keeps_sound_witness :
  sound init
  /\ returned (draw "direct" graphic_modes chord_spline init) = Ok tt
  /\ sound (state_after (draw "direct" graphic_modes chord_spline init)).
Proof.
  destruct (draw_keeps_sound "direct" graphic_modes chord_spline)
    as (S & _ & D).
  split; [exact S|]. apply (D init S).
Defined.

Lemma draw_with_end_points_witness :
  let st := update init (Some floor_field) (Some (0, 0)) (Some (10, 4)) 1 1
              (Some white) None in
  let o := draw "curves" graphic_modes chord_spline st in
  returned o = Ok tt /\ sound (state_after o).
Proof.
  intro st.
  apply (draw_with_end_points "curves" graphic_modes chord_spline st
           (0, 0) (10, 4)); reflexivity.
Defined.

Lemma draw_twice_witness :
  let st := update init (Some floor_field) (Some (0, 0)) (Some (10, 4)) 1 1
              (Some white) None in
  draw "curves" graphic_modes chord_spline
    (state_after (draw "curves" graphic_modes chord_spline st))
  = draw "curves" graphic_modes chord_spline st.
Proof.
  intro st.
  apply (draw_twice "curves" graphic_modes chord_spline st (0, 0) (10, 4));
    reflexivity.
Defined.

Lemma draw_emits_witness :
  let st := update init (Some floor_field) (Some (0, 0)) (Some (10, 0)) 1 1
              (Some white) None in
  let q : arc := ((0, 0), midpoint (0, 0) (10, 0), midpoint (0, 0) (10, 0),
                  (10, 0)) in
  emitted (draw "direct" graphic_modes chord_spline st)
  = flat_map (screen_calls floor_field white) [segments chord_spline q]
    ++ laser_messages white [q].
Proof.
  intros st q.
  apply (draw_emits "direct" graphic_modes chord_spline st floor_field white
           [Pt (0, 0); Pt (midpoint (0, 0) (10, 0));
            Pt (midpoint (0, 0) (10, 0)); Pt (10, 0)]
           [(0, 1, 2, 3)%nat] [q]);
    try reflexivity; try discriminate.
  split; [exact I | reflexivity].
Defined.

(** A centre is inside its circle when the radius is not zero, and
    outside the other circle when the two do not overlap. *)
Lemma centres_of_disjoint_circles (p0 p1 : point) (r0 r1 : Q) :
  disjoint_circles p0 p1 r0 r1 -> 0 < r0 ->
  in_circle p0 p0 r0 = true
  /\ in_circle p1 p0 r0 = false
  /\ in_circle p0 p1 r1 = false.
Proof.
  intros (H0 & H1 & Hd) Hr.
  assert (E0 : square_dist p0 p0 == 0) by (unfold square_dist; ring).
  assert (Er0 : r0 ^ 2 == r0 * r0) by ring.
  assert (Er1 : r1 ^ 2 == r1 * r1) by ring.
  assert (Es : (r0 + r1) ^ 2 == r0 * r0 + 2 * (r0 * r1) + r1 * r1) by ring.
  pose proof (Qmult_le_0_compat _ _ H0 H1) as P01.
  pose proof (Qmult_le_0_compat _ _ H0 H0) as P00.
  pose proof (Qmult_le_0_compat _ _ H1 H1) as P11.
  assert (Pr : 0 < r0 * r0) by (apply Qmult_lt_0_compat; exact Hr).
  rewrite Es in Hd.
  split; [|split].
  - apply in_circle_true. rewrite E0, Er0. exact Pr.
  - apply in_circle_false. rewrite Er0. lra.
  - apply in_circle_false. rewrite Er1, square_dist_sym. lra.
Qed.

(** X18. In pathfinding mode without a path ([update] then stores
    [[p0, p1]]), for two circles that do not overlap and a first radius
    that is not zero, the chain is the single arc
    [make_arc(find_intersect(p0, p1, circle0), p1)]: the first end is
    moved to the boundary of circle 0, the second end stays at the centre
    of circle 1. *)
Theorem pathfinding_default_path (st0 : Line) (field : option Field)
    (c : option color) (p0 p1 : point) (r0 r1 : Q) :
  disjoint_circles p0 p1 r0 r1 -> 0 < r0 ->
  let st := update st0 field (Some p0) (Some p1) r0 r1 c None in
  let o := render "pathfinding" p0 p1 st in
  exists arcpoints,
    m_arcpoints (state_after o) = Some arcpoints
    /\ m_arcindex (state_after o) = Some [(0, 1, 2, 3)%nat]
    /\ read_arcs arcpoints [(0, 1, 2, 3)%nat]
       = Some [make_arc (find_intersect p0 p1 p0 r0) p1].
Proof.
  intros D Hr st o. subst o st.
  destruct (centres_of_disjoint_circles p0 p1 r0 r1 D Hr) as (A & B & C).
  rewrite render_outcome, render_arcs_pathfinding.
  cbn [update m_r0 m_r1 m_path].
  assert (E : path_arcs p0 p1 r0 r1 [p0; p1]
              = [make_arc (find_intersect p0 p1 p0 r0) p1]).
  { rewrite path_arcs_step. unfold skipped, pair_arc.
    now rewrite A, B, C. }
  rewrite E. eexists. split; [reflexivity|]. split; reflexivity.
Qed.

Lemma pathfinding_default_path_witness :
  let p0 : point := (0, 0) in
  let p1 : point := (10, 4) in
  let st := update init None (Some p0) (Some p1) 1 1 None None in
  let o := render "pathfinding" p0 p1 st in
  exists arcpoints,
    m_arcpoints (state_after o) = Some arcpoints
    /\ m_arcindex (state_after o) = Some [(0, 1, 2, 3)%nat]
    /\ read_arcs arcpoints [(0, 1, 2, 3)%nat]
       = Some [make_arc (find_intersect p0 p1 p0 1) p1].
Proof.
  intros p0 p1.
  apply (pathfinding_default_path init None None p0 p1 1 1).
  - unfold disjoint_circles. repeat split; discriminate.
  - reflexivity.
Defined.
